(** * Color utilities of the wedges Tailwind plugin

    A shallow embedding of
    [packages/wedges/src/tw-plugin/utils/colors.ts]: the color resolver
    [getColorFromPalette], the themable variable generator
    [getBaseThemableColors] and the utility expander
    [generateExtendedColorUtilities] with its two helpers.

    The module is untyped at run time (the expander takes
    [Record<string, any>]), so the embedding works on a small universe of
    JavaScript values.  Objects that the code only enumerates are kept as
    their list of own enumerable properties in enumeration order; the
    objects the code builds by assignment ([utilities]) are finite maps. *)

From Stdlib Require Import Ascii.
From stdpp Require Import base strings list gmap pretty.

Set Warnings "-register-all".

(** ** JavaScript values *)

(** [JNumber] carries the integer-valued numbers; the code below only ever
    inspects the [typeof] of a number.  [JFunction] stands for a built-in
    function object, named after the property it is stored under.
    [JObject] lists the own enumerable string-keyed properties of a plain
    object in the order [Object.entries] yields them; a real object has no
    repeated key, and a lookup reads the first entry of a key. *)
Inductive JsValue : Type :=
| JUndefined
| JNull
| JBool (b : bool)
| JNumber (n : Z)
| JString (s : string)
| JFunction (name : string)
| JArray (elems : list JsValue)
| JObject (props : list (string * JsValue)).

(** The own enumerable properties of a plain object. *)
Definition Obj : Type := list (string * JsValue).

(** Errors the engine raises. *)
Inductive JsError : Type :=
| TypeError.

(** How an evaluation ends: with a value, with a thrown error, or outside
    the typed fragment (a value of the imported palette that contradicts
    the type it is declared with, where the callee's signature gives no
    meaning to the call). *)
Inductive Completion (A : Type) : Type :=
| Normal (a : A)
| Throw (e : JsError)
| IllTyped.

Arguments Normal {A} a.
Arguments Throw {A} e.
Arguments IllTyped {A}.

Global Instance Completion_ret : MRet Completion := @Normal.

Global Instance Completion_bind : MBind Completion := λ A B k c,
  match c with
  | Normal a => k a
  | Throw e => Throw e
  | IllTyped => IllTyped
  end.

(** [for (const x of xs) body], threading the state the body updates and
    stopping at the first abrupt completion. *)
Fixpoint for_of {A S : Type} (xs : list A) (body : S → A → Completion S)
    (s : S) : Completion S :=
  match xs with
  | [] => Normal s
  | x :: xs' => s' ← body s x ; for_of xs' body s'
  end.

(** [typeof v]. *)
Definition typeof (v : JsValue) : string :=
  match v with
  | JUndefined => "undefined"
  | JNull => "object"
  | JBool _ => "boolean"
  | JNumber _ => "number"
  | JString _ => "string"
  | JFunction _ => "function"
  | JArray _ => "object"
  | JObject _ => "object"
  end.

(** Own property lookup of a plain object. *)
Definition own_property (o : Obj) (k : string) : option JsValue :=
  (list_to_map o : gmap string JsValue) !! k.

(** The properties every plain object inherits from [Object.prototype].
    All of them are functions except the [__proto__] accessor, which reads
    as the prototype itself, an object without enumerable properties. *)
Definition Object_prototype_names : list string :=
  [ "constructor"; "hasOwnProperty"; "isPrototypeOf";
    "propertyIsEnumerable"; "toLocaleString"; "toString"; "valueOf";
    "__defineGetter__"; "__defineSetter__"; "__lookupGetter__";
    "__lookupSetter__"; "__proto__" ].

Definition Object_prototype_member (k : string) : option JsValue :=
  if decide (k = "__proto__") then Some (JObject [])
  else if decide (k ∈ Object_prototype_names) then Some (JFunction k)
  else None.

(** [k in o] for a plain object [o]: own or inherited. *)
Definition js_in (k : string) (o : Obj) : bool :=
  match own_property o k with
  | Some _ => true
  | None => bool_decide (is_Some (Object_prototype_member k))
  end.

(** [o[k]] for a plain object [o]. *)
Definition js_member (o : Obj) (k : string) : JsValue :=
  match own_property o k with
  | Some v => v
  | None => default JUndefined (Object_prototype_member k)
  end.

(** [v?.DEFAULT].  No built-in prototype defines a property of that name,
    so only an own property of a plain object can supply it. *)
Definition optional_DEFAULT (v : JsValue) : JsValue :=
  match v with
  | JObject props => js_member props "DEFAULT"
  | _ => JUndefined
  end.

(** [v.DEFAULT]: as above, but throws on [undefined] and [null]. *)
Definition member_DEFAULT (v : JsValue) : Completion JsValue :=
  match v with
  | JUndefined | JNull => Throw TypeError
  | _ => Normal (optional_DEFAULT v)
  end.

(** [a ?? b]. *)
Definition nullish_coalesce (a b : JsValue) : JsValue :=
  match a with
  | JUndefined | JNull => b
  | _ => a
  end.

(** [Object.entries(v)].  Array elements are listed under their decimal
    index, the characters of a string likewise (one per byte here, which
    is exact for ASCII text). *)
Definition Object_entries (v : JsValue) : Completion (list (string * JsValue)) :=
  match v with
  | JUndefined | JNull => Throw TypeError
  | JObject props => Normal props
  | JArray elems => Normal (imap (λ i x, (pretty i, x)) elems)
  | JString s =>
      Normal (imap (λ i c, (pretty i, JString (String c "")))
                   (String.list_ascii_of_string s))
  | JBool _ | JNumber _ | JFunction _ => Normal []
  end.

(** [Object.assign(target, source)]: every property of [source] is set on
    [target], so [source] wins where both define a key. *)
Definition Object_assign (target source : gmap string JsValue)
  : gmap string JsValue :=
  source ∪ target.

(** ** The module *)

Definition BACKGROUND_PROPERTY : string := "--wg-background".

(** The palettes [Colors] of [../foundation]. *)
Definition Colors : Type := Obj.

Definition getColorFromPalette (keyOrColor : string) (themeColors : Colors)
  : JsValue :=
  if js_in keyOrColor themeColors then
    nullish_coalesce (optional_DEFAULT (js_member themeColors keyOrColor))
                     (js_member themeColors keyOrColor)
  else JString keyOrColor.

(** Modelled from the spec: the type [ThemeableColorOptions] of
    [../plugin], "two facets, light and dark, each optionally specifying a
    background field that is either a palette key or a literal color
    value".  [None] is an absent (undefined or null) field. *)
Record ThemeableColors : Type := { background : option string }.

Record ThemeableColorOptions : Type :=
  { light : option ThemeableColors;
    dark : option ThemeableColors }.

(** The object literal [{ backgroundColor: value, [BACKGROUND_PROPERTY]: value }]. *)
Definition declarations (value : JsValue) : JsValue :=
  JObject [("backgroundColor", value); (BACKGROUND_PROPERTY, value)].

Definition createSimpleColorUtility (colorName colorValue : string)
  : gmap string JsValue :=
  {[ ".wg-background-" +:+ colorName := declarations (JString colorValue) ]}.

Definition createShadedColorUtility (colorName : string) (colorValues : JsValue)
  : Completion (gmap string JsValue) :=
  entries ← Object_entries colorValues ;
  for_of entries
    (λ utilities '(shade, value),
       if decide (shade = "DEFAULT") then
         Normal (<[ ".wg-background-" +:+ colorName := declarations value ]> utilities)
       else
         Normal (<[ ".wg-background-" +:+ colorName +:+ "-" +:+ shade
                    := declarations value ]> utilities))
    ∅.

Definition generateExtendedColorUtilities (colors : Obj)
  : Completion (gmap string JsValue) :=
  for_of colors
    (λ utilities '(colorName, colorValue),
       match colorValue with
       | JString s =>
           Normal (Object_assign utilities (createSimpleColorUtility colorName s))
       | _ =>
           if decide (typeof colorValue = "object") then
             shaded ← createShadedColorUtility colorName colorValue ;
             Normal (Object_assign utilities shaded)
           else Normal utilities
       end)
    ∅.

Section Themable.

(** The default palette, [colors] of [../foundation], imported as
    [palette]; it is not part of these sources and stays a parameter. *)
Variable palette : Colors.

(** [palette[key].DEFAULT]: a [TypeError] when the palette has nothing
    under [key], the shade or [undefined] otherwise. *)
Definition palette_DEFAULT (key : string) : Completion JsValue :=
  member_DEFAULT (js_member palette key).

(** The call [getColorFromPalette(keyOrColor, themeColors)] on an argument
    that may not be a string.  The signature declares [keyOrColor: string];
    another value can only come from a default palette that contradicts
    its declared type, and the call is then outside the typed fragment. *)
Definition call_getColorFromPalette (keyOrColor : JsValue)
    (themeColors : Colors) : Completion JsValue :=
  match keyOrColor with
  | JString s => Normal (getColorFromPalette s themeColors)
  | _ => IllTyped
  end.

Definition getBaseThemableColors (colors : option ThemeableColorOptions)
    (themeColors : option Colors) : Completion JsValue :=
  defaultLightBgColor ← palette_DEFAULT "wg-white" ;
  defaultDarkBgColor ← palette_DEFAULT "wg-dark" ;
  lightBgColor ←
    call_getColorFromPalette
      (default defaultLightBgColor
         (JString <$> (c ← colors; l ← light c; background l)))
      (default palette themeColors) ;
  darkBgColor ←
    call_getColorFromPalette
      (default defaultDarkBgColor
         (JString <$> (c ← colors; d ← dark c; background d)))
      (default palette themeColors) ;
  Normal (JObject
    [ (":root, .light", JObject [(BACKGROUND_PROPERTY, lightBgColor)]);
      ("@media (prefers-color-scheme: dark)",
       JObject [(":root", JObject [(BACKGROUND_PROPERTY, darkBgColor)])]);
      (".dark", JObject [(BACKGROUND_PROPERTY, darkBgColor)]) ]).

End Themable.

(** ** The class a (color name, shade) pair is given

    A literal entry counts as the shade ["DEFAULT"] of its color: see
    [createSimple_as_DEFAULT] below. *)
Definition generatedClassName (colorName shade : string) : string :=
  if decide (shade = "DEFAULT") then ".wg-background-" +:+ colorName
  else ".wg-background-" +:+ colorName +:+ "-" +:+ shade.

(** The object the loop body of the expander merges into [utilities] for
    one entry; nothing is merged for a skipped entry. *)
Definition colorUtility (entry : string * JsValue)
  : Completion (gmap string JsValue) :=
  match entry.2 with
  | JString s => Normal (createSimpleColorUtility entry.1 s)
  | _ =>
      if decide (typeof entry.2 = "object")
      then createShadedColorUtility entry.1 entry.2
      else Normal ∅
  end.

(** A name without the separator the shaded classes use. *)
Definition hyphen_free (s : string) : Prop :=
  "-"%char ∉ String.list_ascii_of_string s.

(** Assignments [utilities[k] = v] in sequence. *)
Definition assign_all {V : Type} (m : gmap string V) (l : list (string * V))
  : gmap string V :=
  foldl (λ m kv, <[kv.1 := kv.2]> m) m l.

(** A loop that merges one object per element, as the expander does. *)
Definition merge_all {A V : Type} (F : A → Completion (gmap string V))
    (xs : list A) (u : gmap string V) : Completion (gmap string V) :=
  for_of xs (λ u x, m ← F x; Normal (m ∪ u)) u.

Global Arguments merge_all {A V} F xs u : simpl never.

(** The assignments [createShadedColorUtility] performs, in order. *)
Definition shadeClasses (colorName : string) (entries : list (string * JsValue))
  : list (string * JsValue) :=
  (λ sv, (generatedClassName colorName sv.1, declarations sv.2)) <$> entries.


(** ** Sample inputs

    [Object.entries] lists integer-like keys first, so the family
    [{ DEFAULT: "#0000FF", 100: "#AACCFF" }] enumerates as below.  The
    sample palette has the shape of the default one; its colors are
    placeholders. *)
Definition blue_family : Obj :=
  [("blue", JObject [("100", JString "#AACCFF"); ("DEFAULT", JString "#0000FF")])].

Definition colliding_entries : Obj :=
  [("a", JObject [("b", JString "#111111")]); ("a-b", JString "#222222")].

Definition tint_family : Obj :=
  [("tint", JObject [("50", JString "#F5F5FF"); ("900", JString "#101040")])].

Definition stripes_entry : Obj :=
  [("stripes", JArray [JString "#FF0000"; JString "#00FF00"])].

Definition sample_palette : Colors :=
  [ ("wg-white", JObject [("DEFAULT", JString "#FFFFFF")]);
    ("wg-dark", JObject [("50", JString "#F2F2F2"); ("DEFAULT", JString "#0D0D0D")]);
    ("wg-blue", JObject [("100", JString "#E5EEFF"); ("DEFAULT", JString "#5C93FF")]);
    ("transparent", JString "transparent") ].

(** Modelled from the spec: the invariant of the data model, "every
    palette entry is either a literal string or a record containing at
    least a DEFAULT shade", the shade being a literal color string. *)
Definition is_palette_entry (v : JsValue) : bool :=
  match v with
  | JString _ => true
  | JObject shades =>
      match own_property shades "DEFAULT" with
      | Some (JString _) => true
      | _ => false
      end
  | _ => false
  end.

(** The number of (color name, shade) pairs an entry stands for: one for a
    literal, one per shade for a family, one per element for an array. *)
Definition pairCount (entry : string * JsValue) : nat :=
  match entry.2 with
  | JString _ => 1
  | JArray elems => length elems
  | JObject shades => length shades
  | _ => 0
  end.

(** * Strings *)

(** [+:+] is sealed against [simpl]; this unfolds it one constructor at a
    time, in the goal and in the hypotheses. *)
Ltac app_step :=
  repeat match goal with
    | |- context [String ?c ?s +:+ ?t] =>
        change (String c s +:+ t) with (String c (s +:+ t))
    | |- context [EmptyString +:+ ?t] => change (EmptyString +:+ t) with t
    | H : context [String ?c ?s +:+ ?t] |- _ =>
        change (String c s +:+ t) with (String c (s +:+ t)) in H
    | H : context [EmptyString +:+ ?t] |- _ =>
        change (EmptyString +:+ t) with t in H
    end.

Section Strings.

Lemma app_length (s1 s2 : string) :
  String.length (s1 +:+ s2) = String.length s1 + String.length s2.
Proof. induction s1 as [|c s1 IH]; app_step; [done|]. cbn. by rewrite IH. Qed.

(** A string is never its own proper extension. *)
Lemma app_cons_ne (s : string) (c : ascii) (t : string) :
  s ≠ s +:+ String c t.
Proof.
  intros H%(f_equal String.length). rewrite app_length in H. cbn in H. lia.
Qed.

(** Splitting at the first separator is unambiguous. *)
Lemma hyphen_split_inj (n1 n2 s1 s2 : string) :
  hyphen_free n1 → hyphen_free n2 →
  n1 +:+ "-" +:+ s1 = n2 +:+ "-" +:+ s2 → n1 = n2 ∧ s1 = s2.
Proof.
  unfold hyphen_free. revert n2.
  induction n1 as [|c n1 IH]; intros [|c' n2] H1 H2 Heq; app_step; cbn in *.
  - by simplify_eq.
  - simplify_eq. by apply not_elem_of_cons in H2 as [].
  - simplify_eq. by apply not_elem_of_cons in H1 as [].
  - injection Heq as -> Heq.
    apply not_elem_of_cons in H1 as [_ H1], H2 as [_ H2].
    by destruct (IH n2 H1 H2 Heq) as [-> ->].
Qed.

Lemma hyphen_free_no_split (n1 n2 s2 : string) :
  hyphen_free n1 → n1 ≠ n2 +:+ "-" +:+ s2.
Proof.
  unfold hyphen_free. revert n2.
  induction n1 as [|c n1 IH]; intros [|c' n2] H1 Heq; app_step; cbn in *;
    simplify_eq; apply not_elem_of_cons in H1 as [? H1]; [done|].
  by apply (IH n2).
Qed.

(** The decimal rendering of an index begins with a digit. *)
Lemma pretty_N_go_head (x : N) (s : string) :
  (0 < x)%N →
  ∃ d r, (d < 10)%N ∧ pretty_N_go x s = String (pretty_N_char d) r.
Proof.
  revert s. induction (N.lt_wf_0 x) as [x _ IH]; intros s Hx.
  rewrite pretty_N_go_step by done.
  destruct (decide (x `div` 10 = 0)%N) as [->|Hne].
  - rewrite pretty_N_go_0. eexists _, _. split; [|done].
    by apply N.mod_lt.
  - apply IH; [apply N.div_lt; lia|by apply N.neq_0_lt_0].
Qed.

Lemma pretty_nat_ne_DEFAULT (i : nat) : pretty i ≠ "DEFAULT".
Proof.
  unfold pretty, pretty_nat, pretty, pretty_N.
  case_decide as Hi; [done|].
  destruct (pretty_N_go_head (N.of_nat i) "") as (d & r & Hd & ->); [lia|].
  unfold pretty_N_char. by repeat case_match.
Qed.

Lemma app_assoc (s1 s2 s3 : string) :
  (s1 +:+ s2) +:+ s3 = s1 +:+ (s2 +:+ s3).
Proof. induction s1 as [|c s1 IH]; app_step; [done|]. by rewrite IH. Qed.


End Strings.

(** * Loops that build an object *)

Section Loops.

Context {A S : Type}.

(** A body that never completes abruptly makes [for_of] a left fold. *)
Lemma for_of_Normal (f : S → A → S) (body : S → A → Completion S)
    (xs : list A) (s : S) :
  (∀ s x, body s x = Normal (f s x)) →
  for_of xs body s = Normal (foldl f s xs).
Proof.
  intros Hbody. revert s.
  induction xs as [|x xs IH]; intros s; [done|].
  cbn. rewrite Hbody. cbn. apply IH.
Qed.

Lemma for_of_ext (body body' : S → A → Completion S) (xs : list A) (s : S) :
  (∀ s x, body s x = body' s x) →
  for_of xs body s = for_of xs body' s.
Proof.
  intros Hbody. revert s.
  induction xs as [|x xs IH]; intros s; [done|].
  cbn. rewrite Hbody. destruct (body' s x); cbn; auto.
Qed.

Lemma for_of_app (body : S → A → Completion S) (xs ys : list A) (s : S) :
  for_of (xs ++ ys) body s = (s' ← for_of xs body s; for_of ys body s').
Proof.
  revert s. induction xs as [|x xs IH]; intros s; [done|].
  cbn. destruct (body s x); cbn; auto.
Qed.

End Loops.

(** What a sequence of assignments leaves in the object. *)
Section Assignments.

Context {V : Type}.
Implicit Types (m : gmap string V) (l : list (string * V)).

Lemma assign_all_snoc m l k v :
  assign_all m (l ++ [(k, v)]) = <[k := v]> (assign_all m l).
Proof. unfold assign_all. by rewrite foldl_snoc. Qed.

(** Whatever is stored was there before or was assigned. *)
Lemma assign_all_lookup_Some m l k v :
  assign_all m l !! k = Some v → m !! k = Some v ∨ (k, v) ∈ l.
Proof.
  induction l as [|[k' v'] l IH] using rev_ind; [by left|].
  rewrite assign_all_snoc, lookup_insert.
  case_decide as Hk.
  - intros [= <-]. subst. right. set_solver.
  - intros [?|?]%IH; [by left|right; set_solver].
Qed.

(** Every assigned key is present. *)
Lemma assign_all_lookup_is_Some m l k v :
  (k, v) ∈ l → is_Some (assign_all m l !! k).
Proof.
  induction l as [|[k' v'] l IH] using rev_ind; [set_solver|].
  rewrite assign_all_snoc, lookup_insert. case_decide; [done|].
  intros [?|Hin%list_elem_of_singleton]%elem_of_app; [auto|].
  by simplify_eq.
Qed.

(** The last assignment to a key is the one that is read. *)
Lemma assign_all_lookup_last m l1 l2 k v :
  k ∉ l2.*1 → assign_all m (l1 ++ (k, v) :: l2) !! k = Some v.
Proof.
  induction l2 as [|[k' v'] l2 IH] using rev_ind; intros Hk.
  - by rewrite assign_all_snoc, lookup_insert_eq.
  - rewrite fmap_app, not_elem_of_app in Hk. destruct Hk as [Hk Hk'].
    rewrite app_comm_cons, (assoc_L (++)).
    rewrite assign_all_snoc, lookup_insert_ne; [auto|set_solver].
Qed.

(** Keys that are never assigned keep what they had. *)
Lemma assign_all_lookup_other m l k :
  k ∉ l.*1 → assign_all m l !! k = m !! k.
Proof.
  induction l as [|[k' v'] l IH] using rev_ind; intros Hk; [done|].
  rewrite fmap_app, not_elem_of_app in Hk. destruct Hk as [Hk Hk'].
  rewrite assign_all_snoc, lookup_insert_ne; [auto|set_solver].
Qed.

End Assignments.

(** What a merging loop leaves in the object. *)
Section Merging.

Context {A V : Type} (F : A → Completion (gmap string V)).
Implicit Types (u out m : gmap string V) (xs : list A).

Lemma merge_all_cons x xs u :
  merge_all F (x :: xs) u = (m ← F x; merge_all F xs (m ∪ u)).
Proof. unfold merge_all. cbn. by destruct (F x). Qed.

Lemma merge_all_app xs ys u :
  merge_all F (xs ++ ys) u = (u' ← merge_all F xs u; merge_all F ys u').
Proof. apply for_of_app. Qed.

(** The loop completes normally exactly when every element does. *)
Lemma merge_all_Normal xs u :
  (∀ x, x ∈ xs → ∃ m, F x = Normal m) → ∃ out, merge_all F xs u = Normal out.
Proof.
  revert u. induction xs as [|x xs IH]; intros u Hxs; [by eexists|].
  rewrite merge_all_cons.
  destruct (Hxs x) as [m ->]; [by left|]. cbn.
  apply IH. intros x' ?. apply Hxs. by right.
Qed.

Lemma merge_all_Normal_inv xs u out x :
  merge_all F xs u = Normal out → x ∈ xs → ∃ m, F x = Normal m.
Proof.
  revert u. induction xs as [|x' xs IH]; intros u Hrun Hx.
  - by apply elem_of_nil in Hx.
  - rewrite merge_all_cons in Hrun.
    destruct (F x') as [m| |] eqn:HF; [|done..]. cbn in Hrun.
    apply elem_of_cons in Hx as [->|Hx]; [by eexists|by eapply IH].
Qed.

(** The first element that throws ends the loop with its error. *)
Lemma merge_all_Throw xs x ys u e :
  (∀ x', x' ∈ xs → ∃ m, F x' = Normal m) → F x = Throw e →
  merge_all F (xs ++ x :: ys) u = Throw e.
Proof.
  intros Hxs Hx. rewrite merge_all_app.
  destruct (merge_all_Normal xs u Hxs) as [u' ->]. cbn.
  rewrite merge_all_cons. by rewrite Hx.
Qed.

(** Every property of the result comes from the start object or from the
    object of some element. *)
Lemma merge_all_lookup_Some xs u out k d :
  merge_all F xs u = Normal out → out !! k = Some d →
  u !! k = Some d ∨ ∃ x m, x ∈ xs ∧ F x = Normal m ∧ m !! k = Some d.
Proof.
  revert u. induction xs as [|x xs IH]; intros u Hrun Hk.
  - injection Hrun as <-. by left.
  - rewrite merge_all_cons in Hrun.
    destruct (F x) as [m| |] eqn:HF; [|done..]. cbn in Hrun.
    destruct (IH _ Hrun Hk) as [Hu|(x' & m' & ? & ? & ?)].
    + apply lookup_union_Some_raw in Hu as [?|[_ ?]]; [|by left].
      right. exists x, m. split_and!; [by left|done..].
    + right. exists x', m'. split_and!; [by right|done..].
Qed.

(** Keys no element defines keep what the start object had. *)
Lemma merge_all_lookup_other xs u out k :
  merge_all F xs u = Normal out →
  (∀ x m, x ∈ xs → F x = Normal m → m !! k = None) →
  out !! k = u !! k.
Proof.
  revert u. induction xs as [|x xs IH]; intros u Hrun Hxs.
  - by injection Hrun as <-.
  - rewrite merge_all_cons in Hrun.
    destruct (F x) as [m| |] eqn:HF; [|done..]. cbn in Hrun.
    rewrite (IH _ Hrun); [|intros x' m' ?; apply Hxs; by right].
    apply lookup_union_r, (Hxs x); [by left|done].
Qed.

(** The last element that defines a key decides its value. *)
Lemma merge_all_lookup_last xs x ys u out m k d :
  merge_all F (xs ++ x :: ys) u = Normal out →
  F x = Normal m → m !! k = Some d →
  (∀ y my, y ∈ ys → F y = Normal my → my !! k = None) →
  out !! k = Some d.
Proof.
  intros Hrun Hx Hk Hys. rewrite merge_all_app in Hrun.
  destruct (merge_all F xs u) as [u'| |]; [|done..]. cbn in Hrun.
  rewrite merge_all_cons, Hx in Hrun. cbn in Hrun.
  rewrite (merge_all_lookup_other _ _ _ _ Hrun Hys).
  by apply lookup_union_Some_l.
Qed.

(** The loop never removes a property. *)
Lemma merge_all_lookup_mono xs u out k :
  merge_all F xs u = Normal out → is_Some (u !! k) → is_Some (out !! k).
Proof.
  revert u. induction xs as [|x xs IH]; intros u Hrun Hk.
  - by injection Hrun as <-.
  - rewrite merge_all_cons in Hrun.
    destruct (F x) as [m| |]; [|done..]. cbn in Hrun.
    apply (IH _ Hrun), lookup_union_is_Some. by right.
Qed.

(** Every key an element defines is present in the result. *)
Lemma merge_all_lookup_is_Some xs u out x m k :
  merge_all F xs u = Normal out → x ∈ xs → F x = Normal m →
  is_Some (m !! k) → is_Some (out !! k).
Proof.
  revert u. induction xs as [|x' xs IH]; intros u Hrun Hx HF Hk.
  - by apply elem_of_nil in Hx.
  - rewrite merge_all_cons in Hrun.
    destruct (F x') as [m'| |] eqn:HF'; [|done..]. cbn in Hrun.
    apply elem_of_cons in Hx as [->|Hx]; [|by eapply IH].
    rewrite HF in HF'. injection HF' as <-.
    apply (merge_all_lookup_mono _ _ _ _ Hrun), lookup_union_is_Some.
    by left.
Qed.

End Merging.

(** * The expander and its helpers *)

Section Utilities.

Implicit Types (colorName shade cls : string) (colors : Obj).
Implicit Types (m out : gmap string JsValue).

Lemma generatedClassName_DEFAULT colorName :
  generatedClassName colorName "DEFAULT" = ".wg-background-" +:+ colorName.
Proof. done. Qed.

Lemma generatedClassName_shade colorName shade :
  shade ≠ "DEFAULT" →
  generatedClassName colorName shade
  = ".wg-background-" +:+ colorName +:+ "-" +:+ shade.
Proof. intros. unfold generatedClassName. by case_decide. Qed.

(** Within one color, distinct shades get distinct classes. *)
Lemma generatedClassName_inj_shade colorName shade1 shade2 :
  generatedClassName colorName shade1 = generatedClassName colorName shade2 →
  shade1 = shade2.
Proof.
  unfold generatedClassName. repeat case_decide; subst; [done|..];
    intros Heq%(inj (String.app _)).
  - by apply app_cons_ne in Heq.
  - symmetry in Heq. by apply app_cons_ne in Heq.
  - by apply (inj (String.app _)), (inj (String.app _)) in Heq.
Qed.

Lemma createShaded_entries colorName colorValues entries :
  Object_entries colorValues = Normal entries →
  createShadedColorUtility colorName colorValues
  = Normal (assign_all ∅ (shadeClasses colorName entries)).
Proof.
  intros Hes. unfold createShadedColorUtility. rewrite Hes. cbn.
  unfold assign_all, shadeClasses. rewrite foldl_fmap.
  apply for_of_Normal. intros u [shade value]. cbn.
  unfold generatedClassName. by case_decide.
Qed.

(** A literal entry is the family with the single shade ["DEFAULT"]. *)
Lemma createSimple_as_DEFAULT colorName colorValue :
  createShadedColorUtility colorName (JObject [("DEFAULT", JString colorValue)])
  = Normal (createSimpleColorUtility colorName colorValue).
Proof.
  by rewrite (createShaded_entries _ (JObject _) _ eq_refl).
Qed.

Lemma shadeClasses_keys colorName entries shade :
  shade ∉ entries.*1 →
  generatedClassName colorName shade ∉ (shadeClasses colorName entries).*1.
Proof.
  intros Hshade (kv & Heq & (sv & -> & Hsv)%list_elem_of_fmap)%list_elem_of_fmap.
  cbn in Heq. apply generatedClassName_inj_shade in Heq as ->.
  apply Hshade, list_elem_of_fmap. by exists sv.
Qed.

(** What [createShadedColorUtility] returns, entry by entry. *)
Lemma createShaded_lookup_Some colorName colorValues entries m cls d :
  Object_entries colorValues = Normal entries →
  createShadedColorUtility colorName colorValues = Normal m →
  m !! cls = Some d →
  ∃ shade value, (shade, value) ∈ entries
    ∧ cls = generatedClassName colorName shade ∧ d = declarations value.
Proof.
  intros Hes. rewrite (createShaded_entries _ _ _ Hes). intros [= <-] Hcls.
  apply assign_all_lookup_Some in Hcls as [?|Hin]; [done|].
  apply list_elem_of_fmap in Hin as ([shade value] & [= -> ->] & ?).
  by exists shade, value.
Qed.

Lemma createShaded_lookup_is_Some colorName colorValues entries m shade value :
  Object_entries colorValues = Normal entries →
  createShadedColorUtility colorName colorValues = Normal m →
  (shade, value) ∈ entries →
  is_Some (m !! generatedClassName colorName shade).
Proof.
  intros Hes. rewrite (createShaded_entries _ _ _ Hes). intros [= <-] Hin.
  apply (assign_all_lookup_is_Some _ _ _ (declarations value)).
  apply list_elem_of_fmap. by exists (shade, value).
Qed.

Lemma createShaded_lookup_last colorName colorValues l1 l2 m shade value :
  Object_entries colorValues = Normal (l1 ++ (shade, value) :: l2) →
  createShadedColorUtility colorName colorValues = Normal m →
  shade ∉ l2.*1 →
  m !! generatedClassName colorName shade = Some (declarations value).
Proof.
  intros Hes. rewrite (createShaded_entries _ _ _ Hes). intros [= <-] Hl2.
  unfold shadeClasses. rewrite fmap_app, fmap_cons.
  by apply assign_all_lookup_last, shadeClasses_keys.
Qed.

Lemma createShaded_lookup_None colorName colorValues entries m shade :
  Object_entries colorValues = Normal entries →
  createShadedColorUtility colorName colorValues = Normal m →
  shade ∉ entries.*1 →
  m !! generatedClassName colorName shade = None.
Proof.
  intros Hes. rewrite (createShaded_entries _ _ _ Hes). intros [= <-] Hshade.
  rewrite assign_all_lookup_other; [done|by apply shadeClasses_keys].
Qed.

(** The expander is the loop that merges [colorUtility] of each entry. *)
Lemma generateExtendedColorUtilities_merge colors :
  generateExtendedColorUtilities colors = merge_all colorUtility colors ∅.
Proof.
  apply for_of_ext. intros u [colorName colorValue].
  unfold colorUtility, Object_assign. cbn.
  destruct colorValue; cbn; try done;
    (case_decide; [done|]); cbn; by rewrite (left_id_L ∅ (∪)).
Qed.

(** Only a [null] entry makes the loop body throw. *)
Lemma colorUtility_Normal (entry : string * JsValue) :
  entry.2 ≠ JNull → ∃ m, colorUtility entry = Normal m.
Proof.
  destruct entry as [colorName colorValue].
  destruct colorValue; intros ?; try done; try by eexists.
  - eexists. by apply (createShaded_entries _ (JArray _)).
  - eexists. by apply (createShaded_entries _ (JObject _)).
Qed.

Lemma colorUtility_null colorName :
  colorUtility (colorName, JNull) = Throw TypeError.
Proof. done. Qed.

(** Entries that are neither strings nor of type "object" add nothing. *)
Lemma colorUtility_skipped colorName colorValue :
  typeof colorValue ≠ "string" → typeof colorValue ≠ "object" →
  colorUtility (colorName, colorValue) = Normal ∅.
Proof. by destruct colorValue. Qed.

End Utilities.

Section Entries.

Implicit Types (colorName shade cls : string) (colors : Obj).
Implicit Types (m out : gmap string JsValue).

Lemma colorUtility_string colorName s :
  colorUtility (colorName, JString s)
  = Normal (createSimpleColorUtility colorName s).
Proof. done. Qed.

Lemma colorUtility_object colorName colorValue :
  typeof colorValue = "object" →
  colorUtility (colorName, colorValue)
  = createShadedColorUtility colorName colorValue.
Proof. by destruct colorValue. Qed.

(** The three ways the loop body treats an entry. *)
Lemma colorUtility_inv colorName colorValue m :
  colorUtility (colorName, colorValue) = Normal m →
  (∃ s, colorValue = JString s ∧ m = createSimpleColorUtility colorName s)
  ∨ (typeof colorValue = "object"
     ∧ createShadedColorUtility colorName colorValue = Normal m)
  ∨ (typeof colorValue ≠ "string" ∧ typeof colorValue ≠ "object" ∧ m = ∅).
Proof.
  destruct colorValue; intros Hm;
    first [ by right; left
          | injection Hm as <-; by eauto 6 ].
Qed.

(** With every shade listed once, each shade reads back its own value. *)
Lemma createShaded_lookup_NoDup colorName colorValues entries m shade value :
  Object_entries colorValues = Normal entries →
  createShadedColorUtility colorName colorValues = Normal m →
  NoDup entries.*1 → (shade, value) ∈ entries →
  m !! generatedClassName colorName shade = Some (declarations value).
Proof.
  intros Hes Hm Hnd (l1 & l2 & ->)%list_elem_of_split.
  eapply createShaded_lookup_last; [done..|].
  rewrite fmap_app, fmap_cons in Hnd.
  apply NoDup_app in Hnd as (_ & _ & Hnd).
  by apply NoDup_cons in Hnd as [? _].
Qed.

(** The entries of an array are its elements under their indices. *)
Lemma array_entries_keys (elems : list JsValue) :
  (imap (λ i x, (pretty i, x)) elems).*1 = pretty <$> seq 0 (length elems).
Proof.
  rewrite <-(imap_seq_0 elems (λ i : nat, pretty i : string)).
  rewrite fmap_imap. by apply imap_ext.
Qed.

Lemma array_entries_NoDup (elems : list JsValue) :
  NoDup (imap (λ i x, (pretty i : string, x)) elems).*1.
Proof.
  rewrite array_entries_keys. apply (NoDup_fmap_2 _), NoDup_seq.
Qed.

Lemma array_entries_elem_of (elems : list JsValue) shade value :
  (shade, value) ∈ imap (λ i x, (pretty i : string, x)) elems ↔
  ∃ i : nat, shade = pretty i ∧ elems !! i = Some value.
Proof.
  rewrite elem_of_lookup_imap. split.
  - intros (i & x & [= -> ->] & ?). by exists i.
  - intros (i & -> & ?). by exists i, value.
Qed.

End Entries.

(** * The examples of the specification *)

Example expand_literal :
  generateExtendedColorUtilities [("red", JString "#FF0000")]
  = Normal {[ ".wg-background-red" :=
                JObject [("backgroundColor", JString "#FF0000");
                         ("--wg-background", JString "#FF0000")] ]}.
Proof. vm_compute. reflexivity. Qed.

Example expand_family :
  generateExtendedColorUtilities blue_family
  = Normal {[ ".wg-background-blue" := declarations (JString "#0000FF");
              ".wg-background-blue-100" := declarations (JString "#AACCFF") ]}.
Proof. vm_compute. reflexivity. Qed.

Example expand_skips_number :
  generateExtendedColorUtilities [("size", JNumber 3); ("on", JBool true)]
  = Normal ∅.
Proof. vm_compute. reflexivity. Qed.

Example array_indices :
  Object_entries (JArray [JString "#FF0000"; JString "#00FF00"])
  = Normal [("0", JString "#FF0000"); ("1", JString "#00FF00")].
Proof. vm_compute. reflexivity. Qed.

Example resolve_literal :
  getColorFromPalette "#FFFFFF" sample_palette = JString "#FFFFFF".
Proof. reflexivity. Qed.

(** * The claims about the expander *)

(** Without a [null] entry the expander returns. *)
Lemma expander_returns (colors : Obj) :
  Forall (λ entry, entry.2 ≠ JNull) colors →
  ∃ out, generateExtendedColorUtilities colors = Normal out.
Proof.
  intros Hnull. rewrite generateExtendedColorUtilities_merge.
  apply merge_all_Normal. intros entry Hin.
  apply colorUtility_Normal. by eapply Forall_forall in Hnull.
Qed.

(** C1.  For every input mapping without a [null] entry the expander
    returns, and in what it returns: a literal entry [name -> value] yields
    exactly the one class [.wg-background-{name}]; a shaded family yields
    [.wg-background-{name}] for its ["DEFAULT"] shade and
    [.wg-background-{name}-{shade}] for every other shade; every class of
    the output sets [backgroundColor] and [--wg-background] to one and the
    same value, the value of an entry (or shade) that class is generated
    for; and a class holds the value of its own entry (or shade) whenever
    no later entry and no later shade is assigned to the same class. *)
Theorem expander_emits_classes (colors : Obj) :
  Forall (λ entry, entry.2 ≠ JNull) colors →
  ∃ out,
  generateExtendedColorUtilities colors = Normal out
  ∧ (∀ name value,
     createSimpleColorUtility name value
     = {[ ".wg-background-" +:+ name :=
            JObject [("backgroundColor", JString value);
                     ("--wg-background", JString value)] ]})
  ∧ (∀ name value,
       (name, JString value) ∈ colors →
       is_Some (out !! (".wg-background-" +:+ name)))
  ∧ (∀ name family shades value,
       (name, family) ∈ colors → typeof family = "object" →
       Object_entries family = Normal shades →
       (("DEFAULT", value) ∈ shades →
        is_Some (out !! (".wg-background-" +:+ name)))
       ∧ (∀ shade, shade ≠ "DEFAULT" → (shade, value) ∈ shades →
          is_Some (out !! (".wg-background-" +:+ name +:+ "-" +:+ shade))))
  ∧ (∀ cls d,
       out !! cls = Some d →
       ∃ value,
         d = JObject [("backgroundColor", value); ("--wg-background", value)]
         ∧ ((∃ name s, value = JString s ∧ (name, value) ∈ colors
               ∧ cls = ".wg-background-" +:+ name)
            ∨ (∃ name family shades shade,
                 (name, family) ∈ colors ∧ typeof family = "object"
                 ∧ Object_entries family = Normal shades
                 ∧ (shade, value) ∈ shades
                 ∧ cls = (if decide (shade = "DEFAULT")
                          then ".wg-background-" +:+ name
                          else ".wg-background-" +:+ name +:+ "-" +:+ shade))))
  ∧ (∀ before name entry after cls value,
       colors = before ++ (name, entry) :: after →
       (∀ later m, later ∈ after → colorUtility later = Normal m →
          m !! cls = None) →
       (∃ s, entry = JString s ∧ value = entry
             ∧ cls = ".wg-background-" +:+ name)
       ∨ (∃ shades1 shade shades2,
            typeof entry = "object"
            ∧ Object_entries entry = Normal (shades1 ++ (shade, value) :: shades2)
            ∧ (shade ∉ shades2.*1)
            ∧ cls = (if decide (shade = "DEFAULT")
                     then ".wg-background-" +:+ name
                     else ".wg-background-" +:+ name +:+ "-" +:+ shade)) →
       out !! cls
       = Some (JObject [("backgroundColor", value); ("--wg-background", value)])).
Proof.
  intros [out Hrun]%expander_returns. exists out. split; [done|].
  rewrite generateExtendedColorUtilities_merge in Hrun.
  split_and!.
  - done.
  - intros name value Hin.
    eapply merge_all_lookup_is_Some; [done..|apply colorUtility_string|].
    unfold createSimpleColorUtility. by rewrite lookup_singleton_eq.
  - intros name family shades value Hin Hty Hes.
    destruct (merge_all_Normal_inv _ _ _ _ _ Hrun Hin) as [m Hm].
    pose proof Hm as Hsh. rewrite colorUtility_object in Hsh by done.
    split.
    + intros Hshade.
      eapply merge_all_lookup_is_Some; [done..|].
      rewrite <-generatedClassName_DEFAULT.
      by eapply createShaded_lookup_is_Some.
    + intros shade Hne Hshade.
      eapply merge_all_lookup_is_Some; [done..|].
      rewrite <-generatedClassName_shade by done.
      by eapply createShaded_lookup_is_Some.
  - intros cls d Hcls.
    destruct (merge_all_lookup_Some _ _ _ _ _ _ Hrun Hcls)
      as [?|([name entry] & m & Hin & Hm & Hd)]; [done|].
    apply colorUtility_inv in Hm
      as [(s & -> & ->)|[[Hty Hm]|(_ & _ & ->)]]; [| |done].
    + unfold createSimpleColorUtility in Hd.
      apply lookup_singleton_Some in Hd as [<- <-].
      exists (JString s). split; [done|]. left. by exists name, s.
    + destruct (Object_entries entry) as [shades| |] eqn:Hes;
        [|by unfold createShadedColorUtility in Hm; rewrite Hes in Hm..].
      destruct (createShaded_lookup_Some _ _ _ _ _ _ Hes Hm Hd)
        as (shade & value & ? & -> & ->).
      exists value. split; [done|]. right. by exists name, entry, shades, shade.
  - intros before name entry after cls value -> Hafter Hentry.
    destruct Hentry
      as [(s & -> & -> & ->)|(s1 & shade & s2 & Hty & Hes & Hshade & ->)].
    + eapply merge_all_lookup_last; [done|apply colorUtility_string| |done].
      unfold createSimpleColorUtility. by rewrite lookup_singleton_eq.
    + destruct (merge_all_Normal_inv _ _ _ _ (name, entry) Hrun) as [m Hm];
        [set_solver|].
      eapply merge_all_lookup_last; [done..| |done].
      rewrite colorUtility_object in Hm by done.
      by eapply createShaded_lookup_last.
Qed.

Lemma expander_emits_classes_witness :
  ∃ out, generateExtendedColorUtilities blue_family = Normal out
    ∧ is_Some (out !! (".wg-background-" +:+ "blue"))
    ∧ is_Some (out !! (".wg-background-" +:+ "blue" +:+ "-" +:+ "100")).
Proof.
  destruct (expander_emits_classes blue_family)
    as (out & Hrun & _ & _ & Hfamily & _).
  { repeat constructor; discriminate. }
  exists out. split; [exact Hrun|].
  destruct (Hfamily "blue"
             (JObject [("100", JString "#AACCFF"); ("DEFAULT", JString "#0000FF")])
             [("100", JString "#AACCFF"); ("DEFAULT", JString "#0000FF")]
             (JString "#0000FF")) as [Hdefault _];
    [apply list_elem_of_here|reflexivity|reflexivity|].
  destruct (Hfamily "blue"
             (JObject [("100", JString "#AACCFF"); ("DEFAULT", JString "#0000FF")])
             [("100", JString "#AACCFF"); ("DEFAULT", JString "#0000FF")]
             (JString "#AACCFF")) as [_ Hshade];
    [apply list_elem_of_here|reflexivity|reflexivity|].
  split.
  - exact (Hdefault (list_elem_of_further _ _ _ (list_elem_of_here _ _))).
  - refine (Hshade "100" _ (list_elem_of_here _ _)). discriminate.
Defined.

(** An entry that is neither a string nor of type "object" is skipped. *)
Lemma expander_skips (before after : Obj) (name : string) (value : JsValue) :
  typeof value ≠ "string" → typeof value ≠ "object" →
  generateExtendedColorUtilities (before ++ (name, value) :: after)
  = generateExtendedColorUtilities (before ++ after).
Proof.
  intros Hs Ho. rewrite !generateExtendedColorUtilities_merge, !merge_all_app.
  destruct (merge_all colorUtility before ∅) as [u| |]; [|done..]. cbn.
  rewrite merge_all_cons, colorUtility_skipped by done. cbn.
  by rewrite (left_id_L ∅ (∪)).
Qed.

(** C6.  The expander is not total: the entry [accent: null] has type
    "object", so it is handed to [createShadedColorUtility], whose
    [Object.entries(null)] throws a [TypeError]; the entry is not skipped. *)
Theorem expander_throws_on_null :
  typeof JNull = "object"
  ∧ generateExtendedColorUtilities
      [("primary", JString "#7047EB"); ("accent", JNull)]
    = Throw TypeError.
Proof. done. Qed.

(** A list without repetition whose members all equal [a] is [[a]]. *)
Lemma NoDup_singleton_eq {A : Type} (l : list A) (a : A) :
  NoDup l → (∀ x, x ∈ l ↔ x = a) → l = [a].
Proof.
  intros Hnd Hl. apply Permutation_singleton_r, NoDup_Permutation;
    [done|apply NoDup_singleton|].
  intros x. rewrite Hl. by rewrite list_elem_of_singleton.
Qed.

(** C10.  When several entries generate the class [cls], the output maps
    [cls] exactly once, to the declarations of the latest entry that
    generates it: [entry] generates [cls] with [d], and no entry after it
    does.  A class that only one entry generates is the special case where
    nothing before generates it either. *)
Theorem later_entry_overwrites (before : Obj) (entry : string * JsValue)
    (after : Obj) (m : gmap string JsValue) (cls : string) (d : JsValue) :
  Forall (λ entry, entry.2 ≠ JNull) (before ++ entry :: after) →
  colorUtility entry = Normal m → m !! cls = Some d →
  (∀ later m', later ∈ after → colorUtility later = Normal m' →
     m' !! cls = None) →
  ∃ out,
    generateExtendedColorUtilities (before ++ entry :: after) = Normal out
    ∧ out !! cls = Some d
    ∧ filter (λ kv, kv.1 = cls) (map_to_list out) = [(cls, d)].
Proof.
  intros [out Hrun]%expander_returns Hm Hd Hafter.
  exists out. split; [done|].
  rewrite generateExtendedColorUtilities_merge in Hrun.
  assert (out !! cls = Some d) as Hout by by eapply merge_all_lookup_last.
  split; [done|].
  apply NoDup_singleton_eq; [apply NoDup_filter, NoDup_map_to_list|].
  intros [k v]. rewrite list_elem_of_filter, elem_of_map_to_list. cbn. split.
  - intros [-> Hv]. by simplify_eq.
  - by intros [= -> ->].
Qed.

Lemma later_entry_overwrites_witness :
  ∃ out, generateExtendedColorUtilities colliding_entries = Normal out
    ∧ out !! ".wg-background-a-b" = Some (declarations (JString "#222222"))
    ∧ filter (λ kv, kv.1 = ".wg-background-a-b") (map_to_list out)
      = [(".wg-background-a-b", declarations (JString "#222222"))].
Proof.
  apply (later_entry_overwrites
           [("a", JObject [("b", JString "#111111")])]
           ("a-b", JString "#222222") []
           (createSimpleColorUtility "a-b" "#222222")).
  - repeat constructor; discriminate.
  - reflexivity.
  - vm_compute. reflexivity.
  - intros later m' Hin. by apply elem_of_nil in Hin.
Defined.

(** C8.  A shaded family without a ["DEFAULT"] shade raises no error; what
    it contributes is exactly the classes [.wg-background-{name}-{shade}]
    of its shades, all of which reach the output, and never the unshaded
    class [.wg-background-{name}]: the output has that class only if some
    other entry generates it. *)
Theorem family_without_DEFAULT (before after : Obj) (name : string)
    (shades : Obj) :
  Forall (λ entry, entry.2 ≠ JNull) (before ++ after) →
  "DEFAULT" ∉ shades.*1 →
  ∃ out m,
    generateExtendedColorUtilities (before ++ (name, JObject shades) :: after)
    = Normal out
    ∧ createShadedColorUtility name (JObject shades) = Normal m
    ∧ generateExtendedColorUtilities [(name, JObject shades)] = Normal m
    ∧ m !! (".wg-background-" +:+ name) = None
    ∧ (∀ cls, is_Some (m !! cls) ↔
         ∃ shade, shade ∈ shades.*1
           ∧ cls = ".wg-background-" +:+ name +:+ "-" +:+ shade)
    ∧ (∀ cls, is_Some (m !! cls) → is_Some (out !! cls))
    ∧ ((∀ other m', other ∈ before ++ after →
          colorUtility other = Normal m' →
          m' !! (".wg-background-" +:+ name) = None) →
       out !! (".wg-background-" +:+ name) = None).
Proof.
  intros Hnull Hno.
  destruct (expander_returns (before ++ (name, JObject shades) :: after))
    as [out Hrun].
  { apply Forall_app in Hnull as [??]. apply Forall_app. split; [done|].
    by apply Forall_cons. }
  exists out. rewrite generateExtendedColorUtilities_merge in Hrun.
  assert (Object_entries (JObject shades) = Normal shades) as Hes by done.
  pose proof (createShaded_entries name _ _ Hes) as Hm.
  set (m := assign_all ∅ (shadeClasses name shades)) in Hm.
  assert (colorUtility (name, JObject shades) = Normal m) as Hentry
    by by rewrite colorUtility_object.
  assert (m !! (".wg-background-" +:+ name) = None) as Hunshaded.
  { rewrite <-generatedClassName_DEFAULT.
    by eapply createShaded_lookup_None. }
  exists m. split_and!.
  - by rewrite generateExtendedColorUtilities_merge.
  - done.
  - rewrite generateExtendedColorUtilities_merge, merge_all_cons, Hentry. cbn.
    by rewrite (right_id_L ∅ (∪)).
  - done.
  - intros cls. split.
    + intros [d Hd].
      destruct (createShaded_lookup_Some _ _ _ _ _ _ Hes Hm Hd)
        as (shade & value & Hin & -> & _).
      assert (shade ∈ shades.*1) as Hshade.
      { apply list_elem_of_fmap. by exists (shade, value). }
      exists shade. split; [done|].
      apply generatedClassName_shade. by intros ->.
    + intros (shade & (sv & -> & Hin)%list_elem_of_fmap & ->).
      assert (sv.1 ≠ "DEFAULT") as Hne.
      { intros Heq. apply Hno, list_elem_of_fmap. by exists sv. }
      rewrite <-generatedClassName_shade by done.
      destruct sv as [shade value].
      by eapply createShaded_lookup_is_Some.
  - intros cls Hcls.
    eapply merge_all_lookup_is_Some; [done| |done..]. set_solver.
  - intros Hothers.
    rewrite (merge_all_lookup_other _ _ _ _ _ Hrun); [done|].
    intros other m' [Hin|[->|Hin]%elem_of_cons]%elem_of_app Hother.
    + eapply Hothers; [|done]. set_solver.
    + rewrite Hentry in Hother. by injection Hother as <-.
    + eapply Hothers; [|done]. set_solver.
Qed.

Lemma family_without_DEFAULT_witness :
  ∃ out m,
    generateExtendedColorUtilities tint_family = Normal out
    ∧ createShadedColorUtility "tint"
        (JObject [("50", JString "#F5F5FF"); ("900", JString "#101040")])
      = Normal m
    ∧ m !! (".wg-background-" +:+ "tint") = None.
Proof.
  assert ("DEFAULT" ∉ ["50"; "900"]) as Hno.
  { intros [?|[?|[]%elem_of_nil]%elem_of_cons]%elem_of_cons; discriminate. }
  destruct (family_without_DEFAULT [] [] "tint"
              [("50", JString "#F5F5FF"); ("900", JString "#101040")]
              (Forall_nil_2 _) Hno)
    as (out & m & Hrun & Hm & _ & Hnone & _).
  exists out, m. split_and!; [exact Hrun|exact Hm|exact Hnone].
Defined.

(** C9.  An array entry is not skipped: it is handed to
    [createShadedColorUtility] like a family whose shades are the indices.
    The class [.wg-background-{name}-{i}] is generated for exactly the
    indices [i] of the array, with both properties set to the element at
    [i]; these classes reach the output, with that element as value unless
    a later entry generates the same class. *)
Theorem array_entry_is_family (before after : Obj) (name : string)
    (elems : list JsValue) :
  Forall (λ entry, entry.2 ≠ JNull) (before ++ after) →
  ∃ out m,
    generateExtendedColorUtilities (before ++ (name, JArray elems) :: after)
    = Normal out
    ∧ colorUtility (name, JArray elems) = Normal m
    ∧ createShadedColorUtility name (JArray elems) = Normal m
    ∧ (∀ i : nat,
         m !! (".wg-background-" +:+ name +:+ "-" +:+ pretty i)
         = (λ v, JObject [("backgroundColor", v); ("--wg-background", v)])
             <$> elems !! i)
    ∧ (∀ cls, is_Some (m !! cls) →
         ∃ i : nat, i < length elems
           ∧ cls = ".wg-background-" +:+ name +:+ "-" +:+ pretty i)
    ∧ (∀ (i : nat) v, elems !! i = Some v →
         is_Some (out !! (".wg-background-" +:+ name +:+ "-" +:+ pretty i))
         ∧ ((∀ later m', later ∈ after → colorUtility later = Normal m' →
               m' !! (".wg-background-" +:+ name +:+ "-" +:+ pretty i) = None) →
            out !! (".wg-background-" +:+ name +:+ "-" +:+ pretty i)
            = Some (JObject [("backgroundColor", v); ("--wg-background", v)]))).
Proof.
  intros Hnull.
  destruct (expander_returns (before ++ (name, JArray elems) :: after))
    as [out Hrun].
  { apply Forall_app in Hnull as [??]. apply Forall_app. split; [done|].
    by apply Forall_cons. }
  exists out. rewrite generateExtendedColorUtilities_merge in Hrun.
  assert (Object_entries (JArray elems)
          = Normal (imap (λ i x, (pretty i : string, x)) elems)) as Hes by done.
  pose proof (createShaded_entries name _ _ Hes) as Hm.
  set (m := assign_all ∅ _) in Hm.
  assert (colorUtility (name, JArray elems) = Normal m) as Hentry
    by by rewrite colorUtility_object.
  assert (∀ i : nat,
            m !! (".wg-background-" +:+ name +:+ "-" +:+ pretty i)
            = declarations <$> elems !! i) as Hlookup.
  { intros i. rewrite <-generatedClassName_shade by apply pretty_nat_ne_DEFAULT.
    destruct (elems !! i) as [v|] eqn:Hi; cbn.
    - eapply createShaded_lookup_NoDup; [done..|apply array_entries_NoDup|].
      apply array_entries_elem_of. by exists i.
    - eapply createShaded_lookup_None; [done..|].
      rewrite array_entries_keys. intros (j & Hj%(inj _) & Hin)%list_elem_of_fmap.
      subst j. apply elem_of_seq in Hin.
      apply lookup_ge_None in Hi. lia. }
  exists m. split_and!;
    [by rewrite generateExtendedColorUtilities_merge|done..| |].
  - intros cls [d Hd].
    destruct (createShaded_lookup_Some _ _ _ _ _ _ Hes Hm Hd)
      as (shade & value & (i & -> & Hi)%array_entries_elem_of & -> & _).
    exists i. split; [by eapply lookup_lt_Some|].
    apply generatedClassName_shade, pretty_nat_ne_DEFAULT.
  - intros i v Hi.
    assert (m !! (".wg-background-" +:+ name +:+ "-" +:+ pretty i)
            = Some (declarations v)) as Hcls by by rewrite Hlookup, Hi.
    split.
    + eapply merge_all_lookup_is_Some; [done| |done..]. set_solver.
    + intros Hafter. by eapply merge_all_lookup_last.
Qed.

Lemma array_entry_is_family_witness :
  ∃ out m,
    generateExtendedColorUtilities stripes_entry = Normal out
    ∧ colorUtility ("stripes", JArray [JString "#FF0000"; JString "#00FF00"])
      = Normal m
    ∧ m !! (".wg-background-" +:+ "stripes" +:+ "-" +:+ pretty 1%nat)
      = (λ v, JObject [("backgroundColor", v); ("--wg-background", v)])
          <$> [JString "#FF0000"; JString "#00FF00"] !! 1%nat.
Proof.
  destruct (array_entry_is_family [] [] "stripes"
              [JString "#FF0000"; JString "#00FF00"] (Forall_nil_2 _))
    as (out & m & Hrun & Hm & _ & Hlookup & _).
  exists out, m. split_and!; [exact Hrun|exact Hm|exact (Hlookup 1%nat)].
Defined.



(** Whenever one color name is another followed by ["-"] and more, two
    distinct pairs of these colors are given the same class. *)
Lemma extension_collides (name rest : string) :
  ∃ shade1 shade2,
    name +:+ "-" +:+ rest ≠ name
    ∧ generatedClassName (name +:+ "-" +:+ rest) shade1
      = generatedClassName name shade2.
Proof.
  destruct (decide (rest = "DEFAULT")) as [->|Hrest].
  - exists "x", "DEFAULT-x". split; [by intros ?%symmetry%app_cons_ne|].
    unfold generatedClassName. rewrite !decide_False by done.
    by rewrite !app_assoc.
  - exists "DEFAULT", rest. split; [by intros ?%symmetry%app_cons_ne|].
    unfold generatedClassName. by rewrite decide_True, decide_False.
Qed.



(** * The claims about the resolver *)

(** A string that is neither an own key of the palette nor the name of a
    property inherited from [Object.prototype] is returned unchanged. *)
Lemma getColorFromPalette_passthrough (keyOrColor : string) (themeColors : Colors) :
  own_property themeColors keyOrColor = None →
  keyOrColor ∉ Object_prototype_names →
  getColorFromPalette keyOrColor themeColors = JString keyOrColor.
Proof.
  intros Hown Hproto. unfold getColorFromPalette, js_in. rewrite Hown.
  unfold Object_prototype_member.
  case_decide as Hk; [subst; by vm_compute in Hproto; set_solver|].
  by case_decide.
Qed.

(** C4.  The string ["toString"] is not a key of the empty palette, yet the
    resolver does not return it: [in] also finds the properties a plain
    object inherits, so the lookup goes ahead and returns the inherited
    function. *)
Theorem resolver_finds_inherited_key :
  own_property [] "toString" = None
  ∧ js_in "toString" [] = true
  ∧ getColorFromPalette "toString" [] = JFunction "toString"
  ∧ getColorFromPalette "toString" [] ≠ JString "toString".
Proof. done. Qed.

(** C5.  For a key present in the palette the resolver returns the entry
    itself when the entry is a literal color string, and the value of the
    ["DEFAULT"] shade when the entry is a shaded family with that shade. *)
Theorem resolver_present_key (themeColors : Colors) (key : string) :
  (∀ color,
     own_property themeColors key = Some (JString color) →
     getColorFromPalette key themeColors = JString color)
  ∧ (∀ shades d,
       own_property themeColors key = Some (JObject shades) →
       own_property shades "DEFAULT" = Some d →
       d ≠ JUndefined → d ≠ JNull →
       getColorFromPalette key themeColors = d).
Proof.
  unfold getColorFromPalette, js_in, js_member. split.
  - intros color ->. done.
  - intros shades d -> Hd ??. cbn. unfold js_member. rewrite Hd.
    by destruct d.
Qed.

Lemma resolver_present_key_witness :
  getColorFromPalette "transparent" sample_palette = JString "transparent"
  ∧ getColorFromPalette "wg-blue" sample_palette = JString "#5C93FF".
Proof.
  destruct (resolver_present_key sample_palette "transparent") as [Hliteral _].
  destruct (resolver_present_key sample_palette "wg-blue") as [_ Hfamily].
  split.
  - apply Hliteral. reflexivity.
  - apply (Hfamily [("100", JString "#E5EEFF"); ("DEFAULT", JString "#5C93FF")]);
      [reflexivity|reflexivity|discriminate|discriminate].
Defined.

(** * The claims about the themable variables *)

Section ThemableClaims.

(** The default palette and what its declared type promises the
    generator: the colors [wg-white] and [wg-dark] are shaded families
    whose ["DEFAULT"] shade is a string. *)
Variable palette : Colors.
Variables whiteShades darkShades : Obj.
Variables defaultLight defaultDark : string.
Hypothesis palette_white : own_property palette "wg-white" = Some (JObject whiteShades).
Hypothesis white_DEFAULT : own_property whiteShades "DEFAULT" = Some (JString defaultLight).
Hypothesis palette_dark : own_property palette "wg-dark" = Some (JObject darkShades).
Hypothesis dark_DEFAULT : own_property darkShades "DEFAULT" = Some (JString defaultDark).

Lemma palette_DEFAULT_white :
  palette_DEFAULT palette "wg-white" = Normal (JString defaultLight).
Proof.
  unfold palette_DEFAULT, js_member. rewrite palette_white. cbn.
  unfold js_member. by rewrite white_DEFAULT.
Qed.

Lemma palette_DEFAULT_dark :
  palette_DEFAULT palette "wg-dark" = Normal (JString defaultDark).
Proof.
  unfold palette_DEFAULT, js_member. rewrite palette_dark. cbn.
  unfold js_member. by rewrite dark_DEFAULT.
Qed.

Lemma getBaseThemableColors_unfold colors themeColors :
  getBaseThemableColors palette colors themeColors
  = Normal (JObject
      [ (":root, .light",
         JObject [("--wg-background",
           getColorFromPalette
             (default defaultLight (c ← colors; l ← light c; background l))
             (default palette themeColors))]);
        ("@media (prefers-color-scheme: dark)",
         JObject [(":root", JObject [("--wg-background",
           getColorFromPalette
             (default defaultDark (c ← colors; d ← dark c; background d))
             (default palette themeColors))])]);
        (".dark",
         JObject [("--wg-background",
           getColorFromPalette
             (default defaultDark (c ← colors; d ← dark c; background d))
             (default palette themeColors))]) ]).
Proof.
  unfold getBaseThemableColors.
  rewrite palette_DEFAULT_white, palette_DEFAULT_dark. cbn.
  by destruct (c ← colors; l ← light c; background l),
              (c ← colors; d ← dark c; background d).
Qed.

(** C2.  Whatever the options and the extended palette, present or not,
    the generator returns an object with exactly three entries: the
    selector [:root, .light] with the resolved light background, the
    media query [@media (prefers-color-scheme: dark)] with a nested
    [:root] holding the resolved dark background, and the selector
    [.dark] holding that same dark background; each is the single
    declaration of the fixed property [--wg-background].  The resolved
    background of a mode is what the resolver returns, against the
    extended palette or the default one when none is given, for the
    background the options specify for that mode, or for the default
    base color of the mode when they specify none. *)
Theorem themable_declarations (colors : option ThemeableColorOptions)
    (themeColors : option Colors) :
  BACKGROUND_PROPERTY = "--wg-background"
  ∧ ∃ resolvedLight resolvedDark,
      getBaseThemableColors palette colors themeColors
      = Normal (JObject
          [ (":root, .light", JObject [("--wg-background", resolvedLight)]);
            ("@media (prefers-color-scheme: dark)",
             JObject [(":root", JObject [("--wg-background", resolvedDark)])]);
            (".dark", JObject [("--wg-background", resolvedDark)]) ])
      ∧ resolvedLight
        = getColorFromPalette
            match colors with
            | Some {| light := Some {| background := Some bg |} |} => bg
            | _ => defaultLight
            end
            match themeColors with
            | Some extended => extended
            | None => palette
            end
      ∧ resolvedDark
        = getColorFromPalette
            match colors with
            | Some {| dark := Some {| background := Some bg |} |} => bg
            | _ => defaultDark
            end
            match themeColors with
            | Some extended => extended
            | None => palette
            end.
Proof.
  split; [done|]. eexists _, _. split; [apply getBaseThemableColors_unfold|].
  destruct colors as [[lightMode darkMode]|];
    [destruct lightMode as [[[bgl|]]|], darkMode as [[[bgd|]]|]|];
    by destruct themeColors.
Qed.

(** C3, amended.  For each mode the value in the output is the result of
    the resolver, against the extended palette when one is supplied and
    against the default palette otherwise, applied to the background the
    user specifies for that mode or, when there is none, to the default
    base color of that mode (the ["DEFAULT"] shade of [wg-white] for
    light, of [wg-dark] for dark).  The default base color itself is
    therefore the value whenever the resolver passes it through: without
    arguments, when the default palette has no key named like one of its
    two base colors. *)
Theorem themable_background_resolution
    (colors : option ThemeableColorOptions) (themeColors : option Colors) :
  getBaseThemableColors palette colors themeColors
  = Normal (JObject
      [ (":root, .light",
         JObject [("--wg-background",
           getColorFromPalette
             (default defaultLight (c ← colors; l ← light c; background l))
             (default palette themeColors))]);
        ("@media (prefers-color-scheme: dark)",
         JObject [(":root", JObject [("--wg-background",
           getColorFromPalette
             (default defaultDark (c ← colors; d ← dark c; background d))
             (default palette themeColors))])]);
        (".dark",
         JObject [("--wg-background",
           getColorFromPalette
             (default defaultDark (c ← colors; d ← dark c; background d))
             (default palette themeColors))]) ])
  ∧ (js_in defaultLight palette = false → js_in defaultDark palette = false →
     getBaseThemableColors palette None None
     = Normal (JObject
         [ (":root, .light",
            JObject [("--wg-background", JString defaultLight)]);
           ("@media (prefers-color-scheme: dark)",
            JObject [(":root",
              JObject [("--wg-background", JString defaultDark)])]);
           (".dark",
            JObject [("--wg-background", JString defaultDark)]) ])).
Proof.
  split; [apply getBaseThemableColors_unfold|].
  intros Hlight Hdark. rewrite getBaseThemableColors_unfold. cbn.
  unfold getColorFromPalette. by rewrite Hlight, Hdark.
Qed.

End ThemableClaims.

Lemma themable_declarations_witness :
  getBaseThemableColors sample_palette
    (Some {| light := Some {| background := Some "wg-blue" |}; dark := None |})
    None
  = Normal (JObject
      [ (":root, .light", JObject [("--wg-background", JString "#5C93FF")]);
        ("@media (prefers-color-scheme: dark)",
         JObject [(":root", JObject [("--wg-background", JString "#0D0D0D")])]);
        (".dark", JObject [("--wg-background", JString "#0D0D0D")]) ]).
Proof.
  destruct (themable_declarations sample_palette
              [("DEFAULT", JString "#FFFFFF")]
              [("50", JString "#F2F2F2"); ("DEFAULT", JString "#0D0D0D")]
              "#FFFFFF" "#0D0D0D" eq_refl eq_refl eq_refl eq_refl
              (Some {| light := Some {| background := Some "wg-blue" |};
                       dark := None |})
              None)
    as (_ & resolvedLight & resolvedDark & Hrun & -> & ->).
  exact Hrun.
Defined.

(** The extended palette below names a color like the default light base
    color; with no background specified, the light value of the output is
    that entry and not the default base color. *)
Lemma default_base_color_is_resolved :
  palette_DEFAULT sample_palette "wg-white" = Normal (JString "#FFFFFF")
  ∧ getBaseThemableColors sample_palette None
      (Some [("#FFFFFF", JString "#FF0000")])
    = Normal (JObject
        [ (":root, .light", JObject [("--wg-background", JString "#FF0000")]);
          ("@media (prefers-color-scheme: dark)",
           JObject [(":root", JObject [("--wg-background", JString "#0D0D0D")])]);
          (".dark", JObject [("--wg-background", JString "#0D0D0D")]) ])
  ∧ JString "#FF0000" ≠ JString "#FFFFFF".
Proof. done. Qed.

Lemma themable_background_resolution_witness :
  getBaseThemableColors sample_palette None None
  = Normal (JObject
      [ (":root, .light", JObject [("--wg-background", JString "#FFFFFF")]);
        ("@media (prefers-color-scheme: dark)",
         JObject [(":root", JObject [("--wg-background", JString "#0D0D0D")])]);
        (".dark", JObject [("--wg-background", JString "#0D0D0D")]) ]).
Proof.
  exact (proj2 (themable_background_resolution sample_palette
           [("DEFAULT", JString "#FFFFFF")]
           [("50", JString "#F2F2F2"); ("DEFAULT", JString "#0D0D0D")]
           "#FFFFFF" "#0D0D0D" eq_refl eq_refl eq_refl eq_refl None None)
         eq_refl eq_refl).
Defined.

(** * Further properties of the resolver *)

Lemma own_property_elem_of (o : Obj) (k : string) (v : JsValue) :
  own_property o k = Some v → (k, v) ∈ o.
Proof. apply elem_of_list_to_map_2. Qed.

(** The first entry of a key is the one a lookup reads. *)
Lemma own_property_first (before after : Obj) (k : string) (v : JsValue) :
  k ∉ before.*1 → own_property (before ++ (k, v) :: after) k = Some v.
Proof.
  intros Hk. unfold own_property. rewrite list_to_map_app, lookup_union_r.
  - by rewrite list_to_map_cons, lookup_insert_eq.
  - by apply not_elem_of_list_to_map_1.
Qed.

Lemma Object_prototype_member_names (k : string) :
  is_Some (Object_prototype_member k) ↔ k ∈ Object_prototype_names.
Proof.
  unfold Object_prototype_member. split.
  - intros Hk. case_decide as Hproto.
    + subst. repeat first [apply list_elem_of_here|apply list_elem_of_further].
    + case_decide; [done|]. by destruct Hk.
  - intros Hk. case_decide; [done|]. by case_decide.
Qed.

Lemma Object_prototype_member_not_string (k : string) (v : JsValue) (s : string) :
  Object_prototype_member k = Some v → v ≠ JString s.
Proof.
  unfold Object_prototype_member. repeat case_decide; by intros [= <-].
Qed.

(** X1.  For a string that is not an own key of the palette, the resolver
    returns the string unchanged exactly when it is not the name of a
    property inherited from [Object.prototype]; for such a name it returns
    the inherited member. *)
Theorem resolver_passthrough_iff (keyOrColor : string) (themeColors : Colors) :
  own_property themeColors keyOrColor = None →
  (getColorFromPalette keyOrColor themeColors = JString keyOrColor
   ↔ keyOrColor ∉ Object_prototype_names)
  ∧ (∀ member, Object_prototype_member keyOrColor = Some member →
       getColorFromPalette keyOrColor themeColors = member).
Proof.
  intros Hown. split; [split|].
  - intros Hres Hproto%Object_prototype_member_names.
    destruct Hproto as [member Hmember].
    revert Hres. unfold getColorFromPalette, js_in, js_member.
    rewrite Hown, Hmember. cbn.
    pose proof (Object_prototype_member_not_string _ _ keyOrColor Hmember).
    unfold Object_prototype_member in Hmember.
    repeat case_decide; simplify_eq; done.
  - by apply getColorFromPalette_passthrough.
  - intros member Hmember.
    unfold getColorFromPalette, js_in, js_member. rewrite Hown, Hmember. cbn.
    unfold Object_prototype_member in Hmember.
    repeat case_decide; by simplify_eq.
Qed.

Lemma resolver_passthrough_iff_witness :
  getColorFromPalette "rgb(0 0 0 / 50%)" sample_palette
  = JString "rgb(0 0 0 / 50%)".
Proof.
  destruct (resolver_passthrough_iff "rgb(0 0 0 / 50%)" sample_palette eq_refl)
    as [[_ Hpass] _].
  apply Hpass. apply (bool_decide_unpack _). reflexivity.
Defined.

(** X2.  An own entry that offers no ["DEFAULT"] is returned as it is: a
    family without that shade resolves to the family object itself, and an
    entry that is not an object (a number, an array, [null]) to itself. *)
Theorem resolver_entry_without_DEFAULT (themeColors : Colors) (key : string) :
  (∀ shades,
     own_property themeColors key = Some (JObject shades) →
     own_property shades "DEFAULT" = None →
     getColorFromPalette key themeColors = JObject shades)
  ∧ (∀ entry,
       own_property themeColors key = Some entry →
       (∀ shades, entry ≠ JObject shades) →
       getColorFromPalette key themeColors = entry).
Proof.
  unfold getColorFromPalette, js_in, js_member. split.
  - intros shades -> Hno. cbn. unfold js_member. by rewrite Hno.
  - intros entry -> Hentry. destruct entry; try done.
    by destruct (Hentry props).
Qed.

Lemma resolver_entry_without_DEFAULT_witness :
  getColorFromPalette "tint" tint_family
  = JObject [("50", JString "#F5F5FF"); ("900", JString "#101040")].
Proof.
  destruct (resolver_entry_without_DEFAULT tint_family "tint") as [Hfamily _].
  apply Hfamily; reflexivity.
Defined.

(** X3.  Against a palette all of whose entries are literal strings or
    families with a string ["DEFAULT"], the resolver returns a string for
    every argument that is not the name of an inherited property. *)
Theorem resolver_returns_string (themeColors : Colors) (keyOrColor : string) :
  Forall (λ entry, is_palette_entry entry.2) themeColors →
  keyOrColor ∉ Object_prototype_names →
  ∃ color, getColorFromPalette keyOrColor themeColors = JString color.
Proof.
  intros Hwf Hproto.
  destruct (own_property themeColors keyOrColor) as [entry|] eqn:Hown.
  - apply own_property_elem_of in Hown as Hin.
    eapply Forall_forall in Hwf; [|done]. cbn in Hwf.
    unfold getColorFromPalette, js_in, js_member. rewrite Hown.
    destruct entry as [| | | |color| | |shades]; try done; [by exists color|].
    cbn in *. unfold js_member.
    destruct (own_property shades "DEFAULT") as [[| | | |color| | |]|];
      try done.
    by exists color.
  - exists keyOrColor. by apply getColorFromPalette_passthrough.
Qed.

Lemma resolver_returns_string_witness :
  ∃ color, getColorFromPalette "wg-dark" sample_palette = JString color.
Proof.
  apply resolver_returns_string.
  - repeat constructor.
  - apply (bool_decide_unpack _). reflexivity.
Defined.

(** * Further properties of the expander *)

(** The start object of a merging loop can be merged in afterwards. *)
Lemma merge_all_start {A V : Type} (F : A → Completion (gmap string V))
    (xs : list A) (u : gmap string V) :
  merge_all F xs u = (out ← merge_all F xs ∅; Normal (out ∪ u)).
Proof.
  revert u. induction xs as [|x xs IH]; intros u.
  - unfold merge_all. cbn. by rewrite (left_id_L ∅ (∪)).
  - rewrite !merge_all_cons. destruct (F x) as [m| |]; [|done..]. cbn.
    rewrite (IH (m ∪ u)), (IH (m ∪ ∅)).
    destruct (merge_all F xs ∅) as [out| |]; [|done..]. cbn.
    by rewrite (right_id_L ∅ (∪)), (assoc_L (∪)).
Qed.

(** The loop body never ends outside the typed fragment. *)
Lemma colorUtility_typed (entry : string * JsValue) :
  colorUtility entry ≠ IllTyped.
Proof.
  destruct entry as [name value].
  assert (value = JNull ∨ value ≠ JNull) as [->|Hnull]
    by (destruct value; by eauto).
  - done.
  - by destruct (colorUtility_Normal (name, value) Hnull) as [m ->].
Qed.

(** X4.  The expander of a concatenation is the expander of the first part
    merged with the expander of the second, the second winning on common
    classes; an error of either part is the error of the whole. *)
Theorem expander_app (colors1 colors2 : Obj) :
  generateExtendedColorUtilities (colors1 ++ colors2)
  = (out1 ← generateExtendedColorUtilities colors1;
     out2 ← generateExtendedColorUtilities colors2;
     Normal (out2 ∪ out1)).
Proof.
  rewrite !generateExtendedColorUtilities_merge, merge_all_app.
  destruct (merge_all colorUtility colors1 ∅) as [out1| |]; [|done..]. cbn.
  apply merge_all_start.
Qed.

(** X5.  Entries that are neither strings nor of type "object" never
    matter: the expander gives the same result on the mapping and on the
    mapping without them. *)
Theorem expander_filter (colors : Obj) :
  generateExtendedColorUtilities colors
  = generateExtendedColorUtilities
      (filter (λ entry, typeof entry.2 = "string" ∨ typeof entry.2 = "object")
              colors).
Proof.
  rewrite !generateExtendedColorUtilities_merge. generalize (∅ : gmap string JsValue).
  induction colors as [|[name value] colors IH]; intros u; [done|].
  rewrite (filter_cons (λ entry : string * JsValue,
                           typeof entry.2 = "string" ∨ typeof entry.2 = "object")).
  case_decide as Hty; cbn in Hty.
  - rewrite !merge_all_cons. destruct (colorUtility (name, value)); cbn; auto.
  - rewrite merge_all_cons, colorUtility_skipped by tauto. cbn.
    by rewrite (left_id_L ∅ (∪)).
Qed.

(** Every entry is [null] or not. *)
Lemma null_entries_dec (colors : Obj) :
  Forall (λ entry, entry.2 ≠ JNull) colors ∨ ∃ name, (name, JNull) ∈ colors.
Proof.
  induction colors as [|[name value] colors [IH|[name' IH]]].
  - left. constructor.
  - assert (value = JNull ∨ value ≠ JNull) as [->|Hnull]
      by (destruct value; by eauto).
    + right. exists name. apply list_elem_of_here.
    + left. by constructor.
  - right. exists name'. by apply list_elem_of_further.
Qed.

(** X6.  The expander throws exactly when the mapping has a [null] entry,
    and what it throws is a [TypeError]; on every other mapping it returns
    an object. *)
Theorem expander_throws_iff_null (colors : Obj) :
  (generateExtendedColorUtilities colors = Throw TypeError
   ↔ ∃ name, (name, JNull) ∈ colors)
  ∧ ((∃ out, generateExtendedColorUtilities colors = Normal out)
     ↔ ∀ name, (name, JNull) ∉ colors).
Proof.
  assert (generateExtendedColorUtilities colors ≠ IllTyped) as Htyped.
  { rewrite generateExtendedColorUtilities_merge. generalize (∅ : gmap string JsValue).
    induction colors as [|entry colors IH]; intros u; [done|].
    rewrite merge_all_cons. pose proof (colorUtility_typed entry).
    destruct (colorUtility entry); cbn; [apply IH|done..]. }
  assert (∀ out name, generateExtendedColorUtilities colors = Normal out →
            (name, JNull) ∉ colors) as Hnormal.
  { intros out name Hrun Hin.
    rewrite generateExtendedColorUtilities_merge in Hrun.
    destruct (merge_all_Normal_inv _ _ _ _ _ Hrun Hin) as [m Hm].
    by rewrite colorUtility_null in Hm. }
  destruct (null_entries_dec colors) as [Hnone|[name Hnull]].
  - destruct (expander_returns _ Hnone) as [out Hrun]. split.
    + rewrite Hrun. split; [done|]. intros [name Hin].
      by destruct (Hnormal _ _ Hrun Hin).
    + split; [|by exists out]. intros _ name. by apply (Hnormal out).
  - destruct (generateExtendedColorUtilities colors) as [out|[]|] eqn:Hrun.
    + by destruct (Hnormal _ _ eq_refl Hnull).
    + split; [split; [by exists name|done]|].
      split; [by intros [out ?]|]. intros Hno. by destruct (Hno name).
    + done.
Qed.

(** The classes of an entry are classes of its color name. *)
Lemma colorUtility_classes (name : string) (value : JsValue)
    (m : gmap string JsValue) (cls : string) :
  colorUtility (name, value) = Normal m → is_Some (m !! cls) →
  ∃ shade, cls = generatedClassName name shade.
Proof.
  intros [(s & -> & ->)|[[Hty Hm]|(_ & _ & ->)]]%colorUtility_inv [d Hd].
  - unfold createSimpleColorUtility in Hd.
    apply lookup_singleton_Some in Hd as [<- _]. by exists "DEFAULT".
  - destruct (Object_entries value) as [shades| |] eqn:Hes;
      [|by unfold createShadedColorUtility in Hm; rewrite Hes in Hm..].
    destruct (createShaded_lookup_Some _ _ _ _ _ _ Hes Hm Hd)
      as (shade & _ & _ & -> & _).
    by exists shade.
  - done.
Qed.

(** Colors whose names have no separator share no class. *)
Lemma generatedClassName_inj_hyphen_free (name1 shade1 name2 shade2 : string) :
  hyphen_free name1 → hyphen_free name2 →
  generatedClassName name1 shade1 = generatedClassName name2 shade2 →
  name1 = name2.
Proof.
  intros Hfree1 Hfree2. unfold generatedClassName.
  repeat case_decide; subst; intros Heq%(inj (String.app _)).
  - done.
  - by apply hyphen_free_no_split in Heq.
  - symmetry in Heq. by apply hyphen_free_no_split in Heq.
  - by apply hyphen_split_inj in Heq as [??].
Qed.

(** Reordering entries that share no class does not change the result. *)
Lemma merge_colorUtility_Permutation (colors colors' : Obj) :
  colors ≡ₚ colors' →
  NoDup colors.*1 →
  (∀ entry1 entry2 m1 m2 cls,
     entry1 ∈ colors → entry2 ∈ colors → entry1.1 ≠ entry2.1 →
     colorUtility entry1 = Normal m1 → colorUtility entry2 = Normal m2 →
     m1 !! cls = None ∨ m2 !! cls = None) →
  merge_all colorUtility colors ∅ = merge_all colorUtility colors' ∅.
Proof.
  induction 1 as [|entry l l' Hperm IH|entry1 entry2 l|l l' l'' Hperm IH Hperm' IH'];
    intros Hnd Hdisj.
  - done.
  - rewrite !merge_all_cons. destruct (colorUtility entry) as [m| |]; [|done..].
    cbn. rewrite (merge_all_start _ l), (merge_all_start _ l'), IH; [done| |].
    + rewrite fmap_cons in Hnd. by apply NoDup_cons in Hnd as [_ ?].
    + intros e1 e2 ??? ?? ?. apply Hdisj; by try apply list_elem_of_further.
  - rewrite !merge_all_cons.
    pose proof (colorUtility_typed entry1). pose proof (colorUtility_typed entry2).
    destruct (colorUtility entry1) as [m1|[]|] eqn:H1,
             (colorUtility entry2) as [m2|[]|] eqn:H2;
      try done; cbn; rewrite ?merge_all_cons, ?H1, ?H2; cbn; try done.
    rewrite !(assoc_L (∪)). f_equal. f_equal.
    apply map_union_comm, map_disjoint_alt. intros cls.
    apply (Hdisj entry1 entry2);
      [apply list_elem_of_further, list_elem_of_here|apply list_elem_of_here| |done..].
    rewrite !fmap_cons in Hnd. apply NoDup_cons in Hnd as [Hnd _].
    intros Heq. apply Hnd. rewrite Heq. apply list_elem_of_here.
  - rewrite IH by done. apply IH'.
    + by rewrite <-Hperm.
    + intros e1 e2 ?? cls ??. apply Hdisj; by rewrite Hperm.
Qed.

(** X7.  The order in which the entries are enumerated does not matter as
    long as no two of them generate a common class, and in particular
    whenever no color name contains ["-"]: two enumerations of the same
    entries, with distinct color names, give the same result. *)
Theorem expander_order_irrelevant (colors colors' : Obj) :
  colors ≡ₚ colors' →
  NoDup colors.*1 →
  Forall (λ entry, hyphen_free entry.1) colors
  ∨ (∀ entry1 entry2 m1 m2 cls,
       entry1 ∈ colors → entry2 ∈ colors → entry1.1 ≠ entry2.1 →
       colorUtility entry1 = Normal m1 → colorUtility entry2 = Normal m2 →
       m1 !! cls = None ∨ m2 !! cls = None) →
  generateExtendedColorUtilities colors = generateExtendedColorUtilities colors'.
Proof.
  intros Hperm Hnd Hdisj. rewrite !generateExtendedColorUtilities_merge.
  apply merge_colorUtility_Permutation; [done..|].
  destruct Hdisj as [Hfree|Hdisj]; [|done].
  intros [name1 value1] [name2 value2] m1 m2 cls Hin1 Hin2 Hne Hm1 Hm2.
  destruct (m1 !! cls) as [d1|] eqn:Hd1; [|by left].
  destruct (m2 !! cls) as [d2|] eqn:Hd2; [|by right].
  destruct (colorUtility_classes _ _ _ cls Hm1) as [shade1 ->]; [by eexists|].
  destruct (colorUtility_classes _ _ _ (generatedClassName name1 shade1) Hm2)
    as [shade2 Heq]; [by eexists|].
  destruct Hne. cbn. eapply generatedClassName_inj_hyphen_free; [| |done].
  - apply (proj1 (Forall_forall _ _) Hfree _ Hin1).
  - apply (proj1 (Forall_forall _ _) Hfree _ Hin2).
Qed.

Lemma expander_order_irrelevant_witness :
  generateExtendedColorUtilities
    [("red", JString "#FF0000");
     ("blue", JObject [("100", JString "#AACCFF"); ("DEFAULT", JString "#0000FF")])]
  = generateExtendedColorUtilities
      [("blue", JObject [("100", JString "#AACCFF"); ("DEFAULT", JString "#0000FF")]);
       ("red", JString "#FF0000")].
Proof.
  apply expander_order_irrelevant.
  - apply perm_swap.
  - apply (bool_decide_unpack _). reflexivity.
  - left. repeat constructor; apply (bool_decide_unpack _); reflexivity.
Defined.

(** Assignments to distinct keys of an empty object leave as many
    properties as there are assignments. *)
Lemma assign_all_size {V : Type} (l : list (string * V)) :
  NoDup l.*1 → size (assign_all (∅ : gmap string V) l) = length l.
Proof.
  induction l as [|[k v] l IH] using rev_ind; intros Hnd; [done|].
  rewrite fmap_app in Hnd. apply NoDup_app in Hnd as (Hl & Hk & _).
  rewrite assign_all_snoc, length_app, map_size_insert_None.
  - rewrite IH by done. cbn. lia.
  - rewrite assign_all_lookup_other; [done|].
    intros Hin. apply (Hk _ Hin). cbn. apply list_elem_of_here.
Qed.

Lemma shadeClasses_NoDup (colorName : string) (entries : list (string * JsValue)) :
  NoDup entries.*1 → NoDup (shadeClasses colorName entries).*1.
Proof.
  intros Hnd. unfold shadeClasses. rewrite <-list_fmap_compose.
  change (fst ∘ _) with (generatedClassName colorName ∘ (fst : string * JsValue → string)).
  rewrite list_fmap_compose. apply NoDup_fmap_2_strong; [|done].
  intros ?? _ _. apply generatedClassName_inj_shade.
Qed.

(** X8.  A family whose shades are all distinct yields one class per shade:
    the object [createShadedColorUtility] returns has as many classes as
    the family has shades. *)
Theorem createShaded_size (colorName : string) (colorValues : JsValue)
    (shades : list (string * JsValue)) :
  Object_entries colorValues = Normal shades →
  NoDup shades.*1 →
  ∃ m, createShadedColorUtility colorName colorValues = Normal m
    ∧ size m = length shades.
Proof.
  intros Hes Hnd. eexists. split; [by apply createShaded_entries|].
  rewrite assign_all_size by by apply shadeClasses_NoDup.
  unfold shadeClasses. by rewrite length_fmap.
Qed.

Lemma createShaded_size_witness :
  ∃ m, createShadedColorUtility "blue"
         (JObject [("100", JString "#AACCFF"); ("DEFAULT", JString "#0000FF")])
       = Normal m
    ∧ size m = 2.
Proof.
  apply (createShaded_size "blue" (JObject _)
           [("100", JString "#AACCFF"); ("DEFAULT", JString "#0000FF")]).
  - reflexivity.
  - apply (bool_decide_unpack _). reflexivity.
Defined.

(** X9.  Every class of the output is in the namespace of a color of the
    mapping: its name is [.wg-background-{name}], alone or followed by
    ["-"] and a shade, for a color name of the input. *)
Theorem expander_class_namespace (colors : Obj) (out : gmap string JsValue)
    (cls : string) :
  generateExtendedColorUtilities colors = Normal out →
  is_Some (out !! cls) →
  ∃ name, name ∈ colors.*1
    ∧ (cls = ".wg-background-" +:+ name
       ∨ ∃ shade, cls = ".wg-background-" +:+ name +:+ "-" +:+ shade).
Proof.
  rewrite generateExtendedColorUtilities_merge. intros Hrun [d Hd].
  destruct (merge_all_lookup_Some _ _ _ _ _ _ Hrun Hd)
    as [?|([name value] & m & Hin & Hm & Hcls)]; [done|].
  exists name. split.
  - apply list_elem_of_fmap. by exists (name, value).
  - destruct (colorUtility_classes _ _ _ cls Hm) as [shade ->]; [by eexists|].
    unfold generatedClassName. case_decide; [by left|right; by exists shade].
Qed.

Lemma expander_class_namespace_witness :
  ∃ name, name ∈ ["red"]
    ∧ (".wg-background-red" = ".wg-background-" +:+ name
       ∨ ∃ shade, ".wg-background-red" = ".wg-background-" +:+ name +:+ "-" +:+ shade).
Proof.
  apply (expander_class_namespace [("red", JString "#FF0000")]
           {[ ".wg-background-red" := declarations (JString "#FF0000") ]}).
  - vm_compute. reflexivity.
  - vm_compute. by eexists.
Defined.

(** X10.  The expander treats a literal entry [name -> value] and the
    family [name -> { DEFAULT: value }] alike, wherever the entry stands
    in the mapping. *)
Theorem expander_literal_as_DEFAULT (before after : Obj) (name value : string) :
  generateExtendedColorUtilities (before ++ (name, JString value) :: after)
  = generateExtendedColorUtilities
      (before ++ (name, JObject [("DEFAULT", JString value)]) :: after).
Proof.
  rewrite !generateExtendedColorUtilities_merge, !merge_all_app.
  destruct (merge_all colorUtility before ∅) as [u| |]; [|done..]. cbn.
  rewrite !merge_all_cons, colorUtility_string, colorUtility_object by done.
  by rewrite createSimple_as_DEFAULT.
Qed.

Lemma Object_entries_Normal (v : JsValue) :
  v ≠ JUndefined → v ≠ JNull → ∃ entries, Object_entries v = Normal entries.
Proof. destruct v; intros ??; try done; by eexists. Qed.

(** X11.  Called on its own, [createShadedColorUtility] throws a
    [TypeError] on [null] and on [undefined] and returns an object on
    every other value; the expander never passes it [undefined], which it
    skips. *)
Theorem createShaded_throws_iff_nullish (colorName : string) (colorValues : JsValue) :
  (createShadedColorUtility colorName colorValues = Throw TypeError
   ↔ colorValues = JUndefined ∨ colorValues = JNull)
  ∧ ((∃ m, createShadedColorUtility colorName colorValues = Normal m)
     ↔ colorValues ≠ JUndefined ∧ colorValues ≠ JNull)
  ∧ colorUtility (colorName, JUndefined) = Normal ∅.
Proof.
  assert (colorValues ≠ JUndefined → colorValues ≠ JNull →
          ∃ m, createShadedColorUtility colorName colorValues = Normal m)
    as Hreturns.
  { intros Hu Hn. destruct (Object_entries_Normal _ Hu Hn) as [entries Hes].
    eexists. by apply createShaded_entries. }
  split_and!; [| |done].
  - split; [|by intros [->| ->]].
    intros Hthrow. destruct colorValues; try (by auto);
      (destruct Hreturns as [m Hm]; [done..|by rewrite Hm in Hthrow]).
  - split; [|by intros [??]; apply Hreturns].
    intros [m Hm]. by destruct colorValues.
Qed.

(** X12.  The expander and the resolver agree on the unshaded class: for a
    well-formed entry of a palette (a literal, or a family with distinct
    shades and a string ["DEFAULT"]) that is the first of its name, the
    class [.wg-background-{name}] of the expander's output sets both
    properties to the color the resolver returns for [name] against the
    same palette, unless a later entry generates that class. *)
Theorem unshaded_class_is_resolved_color (before after : Obj) (name : string)
    (entry : JsValue) (out : gmap string JsValue) :
  generateExtendedColorUtilities (before ++ (name, entry) :: after)
  = Normal out →
  name ∉ before.*1 →
  is_palette_entry entry →
  (∀ shades, entry = JObject shades → NoDup shades.*1) →
  (∀ later m, later ∈ after → colorUtility later = Normal m →
     m !! (".wg-background-" +:+ name) = None) →
  out !! (".wg-background-" +:+ name)
  = Some (JObject
      [("backgroundColor",
        getColorFromPalette name (before ++ (name, entry) :: after));
       ("--wg-background",
        getColorFromPalette name (before ++ (name, entry) :: after))]).
Proof.
  rewrite generateExtendedColorUtilities_merge.
  intros Hrun Hfirst Hwf Hnd Hafter.
  pose proof (own_property_first before after name entry Hfirst) as Hown.
  unfold getColorFromPalette, js_in, js_member. rewrite Hown.
  destruct entry as [| | | |color| | |shades]; try done.
  - eapply merge_all_lookup_last; [done|apply colorUtility_string| |done].
    unfold createSimpleColorUtility. by rewrite lookup_singleton_eq.
  - cbn in Hwf. cbn. unfold js_member.
    destruct (own_property shades "DEFAULT") as [[| | | |color| | |]|] eqn:Hd;
      try done.
    cbn.
    destruct (merge_all_Normal_inv _ _ _ _ (name, JObject shades) Hrun)
      as [m Hm]; [set_solver|].
    eapply merge_all_lookup_last; [done..| |done].
    rewrite colorUtility_object in Hm by done.
    rewrite <-generatedClassName_DEFAULT.
    eapply (createShaded_lookup_NoDup _ (JObject shades)); [done..|by apply Hnd|].
    by apply own_property_elem_of.
Qed.

Lemma unshaded_class_is_resolved_color_witness :
  ∃ out, generateExtendedColorUtilities blue_family = Normal out
    ∧ out !! (".wg-background-" +:+ "blue")
      = Some (JObject
          [("backgroundColor", getColorFromPalette "blue" blue_family);
           ("--wg-background", getColorFromPalette "blue" blue_family)]).
Proof.
  exists {[ ".wg-background-blue" := declarations (JString "#0000FF");
            ".wg-background-blue-100" := declarations (JString "#AACCFF") ]}.
  split; [vm_compute; reflexivity|].
  apply (unshaded_class_is_resolved_color [] [] "blue"
           (JObject [("100", JString "#AACCFF"); ("DEFAULT", JString "#0000FF")])).
  - vm_compute. reflexivity.
  - apply not_elem_of_nil.
  - exact I.
  - intros shades [= <-]. apply (bool_decide_unpack _). reflexivity.
  - intros later m Hin. by apply elem_of_nil in Hin.
Defined.

(** * Further properties of the themable variables *)

Section ThemableFurther.

(** The default palette, with what its declared type promises. *)
Variable palette : Colors.
Variables whiteShades darkShades : Obj.
Variables defaultLight defaultDark : string.
Hypothesis palette_white : own_property palette "wg-white" = Some (JObject whiteShades).
Hypothesis white_DEFAULT : own_property whiteShades "DEFAULT" = Some (JString defaultLight).
Hypothesis palette_dark : own_property palette "wg-dark" = Some (JObject darkShades).
Hypothesis dark_DEFAULT : own_property darkShades "DEFAULT" = Some (JString defaultDark).

(** X13.  A supplied extended palette replaces the default palette in the
    resolution; it is not consulted in addition to it.  A light background
    that is no key of the extended palette (and no inherited name) is
    written out as it is, whatever the default palette holds under that
    name. *)
Theorem extended_palette_replaces_default (extended : Colors)
    (options : ThemeableColorOptions) (mode : ThemeableColors) (bg : string) :
  light options = Some mode → background mode = Some bg →
  own_property extended bg = None → bg ∉ Object_prototype_names →
  ∃ darkValue,
    getBaseThemableColors palette (Some options) (Some extended)
    = Normal (JObject
        [ (":root, .light", JObject [("--wg-background", JString bg)]);
          ("@media (prefers-color-scheme: dark)",
           JObject [(":root", JObject [("--wg-background", darkValue)])]);
          (".dark", JObject [("--wg-background", darkValue)]) ]).
Proof.
  intros Hlight Hbg Hown Hproto. eexists.
  rewrite (getBaseThemableColors_unfold palette whiteShades darkShades
             defaultLight defaultDark) by done.
  cbn. rewrite Hlight. cbn. rewrite Hbg. cbn.
  by rewrite getColorFromPalette_passthrough.
Qed.

End ThemableFurther.

Lemma extended_palette_replaces_default_witness :
  own_property sample_palette "wg-blue"
  = Some (JObject [("100", JString "#E5EEFF"); ("DEFAULT", JString "#5C93FF")])
  ∧ ∃ darkValue,
      getBaseThemableColors sample_palette
        (Some {| light := Some {| background := Some "wg-blue" |}; dark := None |})
        (Some [("brand", JString "#7047EB")])
      = Normal (JObject
          [ (":root, .light", JObject [("--wg-background", JString "wg-blue")]);
            ("@media (prefers-color-scheme: dark)",
             JObject [(":root", JObject [("--wg-background", darkValue)])]);
            (".dark", JObject [("--wg-background", darkValue)]) ]).
Proof.
  split; [reflexivity|].
  apply (extended_palette_replaces_default sample_palette
           [("DEFAULT", JString "#FFFFFF")]
           [("50", JString "#F2F2F2"); ("DEFAULT", JString "#0D0D0D")]
           "#FFFFFF" "#0D0D0D" eq_refl eq_refl eq_refl eq_refl
           [("brand", JString "#7047EB")]
           {| light := Some {| background := Some "wg-blue" |}; dark := None |}
           {| background := Some "wg-blue" |} "wg-blue" eq_refl eq_refl eq_refl).
  apply (bool_decide_unpack _). reflexivity.
Defined.

Section ThemableEdges.

Variable palette : Colors.




End ThemableEdges.

Section ThemableKeys.

Variable palette : Colors.
Variables whiteShades darkShades : Obj.
Variables defaultLight defaultDark : string.
Hypothesis palette_white : own_property palette "wg-white" = Some (JObject whiteShades).
Hypothesis white_DEFAULT : own_property whiteShades "DEFAULT" = Some (JString defaultLight).
Hypothesis palette_dark : own_property palette "wg-dark" = Some (JObject darkShades).
Hypothesis dark_DEFAULT : own_property darkShades "DEFAULT" = Some (JString defaultDark).

(** X15.  Without an extended palette, a light background that names a
    family of the default palette is written out as the ["DEFAULT"] color
    of that family, and a dark background likewise in both dark contexts;
    the other mode keeps its own value. *)
Theorem generator_resolves_palette_keys (options : ThemeableColorOptions)
    (mode : ThemeableColors) (key : string) (shades : Obj) (color : string) :
  background mode = Some key →
  own_property palette key = Some (JObject shades) →
  own_property shades "DEFAULT" = Some (JString color) →
  (light options = Some mode →
   ∃ darkValue,
     getBaseThemableColors palette (Some options) None
     = Normal (JObject
         [ (":root, .light", JObject [("--wg-background", JString color)]);
           ("@media (prefers-color-scheme: dark)",
            JObject [(":root", JObject [("--wg-background", darkValue)])]);
           (".dark", JObject [("--wg-background", darkValue)]) ]))
  ∧ (dark options = Some mode →
     ∃ lightValue,
       getBaseThemableColors palette (Some options) None
       = Normal (JObject
           [ (":root, .light", JObject [("--wg-background", lightValue)]);
             ("@media (prefers-color-scheme: dark)",
              JObject [(":root", JObject [("--wg-background", JString color)])]);
             (".dark", JObject [("--wg-background", JString color)]) ])).
Proof.
  intros Hbg Hkey Hcolor.
  assert (getColorFromPalette key palette = JString color) as Hres.
  { unfold getColorFromPalette, js_in, js_member. rewrite Hkey. cbn.
    unfold js_member. by rewrite Hcolor. }
  split; intros Hmode; eexists;
    rewrite (getBaseThemableColors_unfold palette whiteShades darkShades
               defaultLight defaultDark) by done;
    cbn; rewrite Hmode; cbn; rewrite Hbg; cbn; by rewrite Hres.
Qed.

End ThemableKeys.

Lemma generator_resolves_palette_keys_witness :
  ∃ darkValue,
    getBaseThemableColors sample_palette
      (Some {| light := Some {| background := Some "wg-blue" |}; dark := None |})
      None
    = Normal (JObject
        [ (":root, .light", JObject [("--wg-background", JString "#5C93FF")]);
          ("@media (prefers-color-scheme: dark)",
           JObject [(":root", JObject [("--wg-background", darkValue)])]);
          (".dark", JObject [("--wg-background", darkValue)]) ]).
Proof.
  apply (proj1 (generator_resolves_palette_keys sample_palette
           [("DEFAULT", JString "#FFFFFF")]
           [("50", JString "#F2F2F2"); ("DEFAULT", JString "#0D0D0D")]
           "#FFFFFF" "#0D0D0D" eq_refl eq_refl eq_refl eq_refl
           {| light := Some {| background := Some "wg-blue" |}; dark := None |}
           {| background := Some "wg-blue" |} "wg-blue"
           [("100", JString "#E5EEFF"); ("DEFAULT", JString "#5C93FF")]
           "#5C93FF" eq_refl eq_refl eq_refl)).
  reflexivity.
Defined.


(** * Counting the classes *)

(** What one entry contributes has one class per pair it stands for. *)
Lemma colorUtility_size (entry : string * JsValue) (m : gmap string JsValue) :
  (∀ shades, entry.2 = JObject shades → NoDup shades.*1) →
  colorUtility entry = Normal m → size m = pairCount entry.
Proof.
  destruct entry as [name value]. unfold pairCount. cbn. intros Hnd Hm.
  destruct value as [| | | |s| |elems|shades];
    first [ by rewrite colorUtility_null in Hm
          | by rewrite colorUtility_skipped in Hm by done; injection Hm as <-
          | idtac ].
  - rewrite colorUtility_string in Hm. injection Hm as <-.
    apply map_size_singleton.
  - rewrite colorUtility_object in Hm by done.
    rewrite (createShaded_entries _ (JArray elems) _ eq_refl) in Hm.
    injection Hm as <-.
    rewrite assign_all_size by apply shadeClasses_NoDup, array_entries_NoDup.
    unfold shadeClasses. by rewrite length_fmap, length_imap.
  - rewrite colorUtility_object in Hm by done.
    rewrite (createShaded_entries _ (JObject shades) _ eq_refl) in Hm.
    injection Hm as <-.
    rewrite assign_all_size by by apply shadeClasses_NoDup, Hnd.
    unfold shadeClasses. by rewrite length_fmap.
Qed.

(** X16.  No class is lost when the color names are distinct and contain
    no ["-"]: the output then has exactly one class for every literal
    entry, every shade of every family and every element of every array
    of the mapping. *)
Theorem expander_class_count (colors : Obj) (out : gmap string JsValue) :
  NoDup colors.*1 →
  Forall (λ entry, hyphen_free entry.1) colors →
  Forall (λ entry, ∀ shades, entry.2 = JObject shades → NoDup shades.*1) colors →
  generateExtendedColorUtilities colors = Normal out →
  size out = sum_list_with pairCount colors.
Proof.
  rewrite generateExtendedColorUtilities_merge. revert out.
  induction colors as [|[name value] colors IH] using rev_ind;
    intros out Hnd Hfree Hshades Hrun.
  - injection Hrun as <-. apply map_size_empty.
  - rewrite fmap_app in Hnd. apply NoDup_app in Hnd as (Hnd & Hname & _).
    apply Forall_app in Hfree as [Hfree Hfree1], Hshades as [Hshades Hshades1].
    apply Forall_cons in Hfree1 as [Hfree1 _], Hshades1 as [Hshades1 _].
    rewrite merge_all_app in Hrun.
    destruct (merge_all colorUtility colors ∅) as [out0| |] eqn:Hrun0;
      [|done..].
    cbn in Hrun. rewrite merge_all_cons in Hrun.
    destruct (colorUtility (name, value)) as [m| |] eqn:Hm; [|done..].
    cbn in Hrun. unfold merge_all in Hrun. cbn in Hrun. injection Hrun as <-.
    rewrite sum_list_with_app, map_size_disj_union.
    + rewrite (IH out0), (colorUtility_size _ _ Hshades1 Hm) by done.
      cbn. lia.
    + apply map_disjoint_alt. intros cls.
      destruct (m !! cls) as [d|] eqn:Hd; [|by left]. right.
      destruct (out0 !! cls) as [d0|] eqn:Hd0; [|done].
      destruct (merge_all_lookup_Some _ _ _ _ _ _ Hrun0 Hd0)
        as [?|([name0 value0] & m0 & Hin0 & Hm0 & Hcls0)]; [done|].
      destruct (colorUtility_classes _ _ _ cls Hm) as [shade ->]; [by eexists|].
      destruct (colorUtility_classes _ _ _ (generatedClassName name shade) Hm0)
        as [shade0 Heq]; [by eexists|].
      apply generatedClassName_inj_hyphen_free in Heq as ->;
        [|done|apply (proj1 (Forall_forall _ _) Hfree _ Hin0)].
      destruct (Hname name0).
      * apply list_elem_of_fmap. by exists (name0, value0).
      * cbn. apply list_elem_of_here.
Qed.

Lemma expander_class_count_witness :
  ∃ out,
    generateExtendedColorUtilities
      [("red", JString "#FF0000");
       ("blue", JObject [("100", JString "#AACCFF"); ("DEFAULT", JString "#0000FF")]);
       ("size", JNumber 3)]
    = Normal out
    ∧ size out = 3.
Proof.
  exists {[ ".wg-background-red" := declarations (JString "#FF0000");
            ".wg-background-blue" := declarations (JString "#0000FF");
            ".wg-background-blue-100" := declarations (JString "#AACCFF") ]}.
  split; [vm_compute; reflexivity|].
  apply (expander_class_count
           [("red", JString "#FF0000");
            ("blue", JObject [("100", JString "#AACCFF"); ("DEFAULT", JString "#0000FF")]);
            ("size", JNumber 3)]).
  - apply (bool_decide_unpack _). reflexivity.
  - repeat constructor; apply (bool_decide_unpack _); reflexivity.
  - repeat constructor; cbn; intros shades [= <-];
      apply (bool_decide_unpack _); reflexivity.
  - vm_compute. reflexivity.
Defined.
